(** * Bolt group analysis: capacity table and force distribution engine

    A shallow embedding of [src/boltData.ts], of the calculation code of
    [App] (the layout function [calculateBoltLayout] and the calculation
    effect) and of [calculateBoltForces] of the [BoltPattern] component.

    Numbers.  A JavaScript [number] that holds a measure (a spacing, a load,
    a capacity, a force) is modelled as a real number of [R]: the arithmetic
    of the source is read as exact real arithmetic, [Math.sqrt], [Math.cos],
    [Math.sin], [Math.PI], [Math.max] and [Math.pow] as [sqrt], [cos], [sin],
    [PI], [Rmax] and [pow].  Rounding of IEEE doubles, infinities and NaN are
    outside this model.  Division by zero has no counterpart in JavaScript's
    sense either, so statements that depend on a quotient carry the
    hypotheses that make its divisor non-zero.  A [number] that counts bolts,
    rows or columns and drives a [for] loop is a [nat], injected with [INR]
    where the source uses it in arithmetic.

    Doubles.  The program computes with IEEE binary64 numbers.  Module
    [Doubles] evaluates some of its expressions on them, with the operations
    of [PrimFloat], to show where an identity of exact arithmetic holds for
    the doubles only up to rounding. *)

From Stdlib Require Import Reals Lra Lia List String Bool PeanoNat.
From Stdlib Require PrimFloat.
Import ListNotations.

Local Open Scope R_scope.

(** ** Loops *)

(** [for (let i = 0; i < n; i++) body], threading the state the body
    updates. *)
Definition for_range {S : Type} (n : nat) (body : nat -> S -> S) (s : S) : S :=
  fold_left (fun acc i => body i acc) (seq 0 n) s.

(** ** The capacity table, [src/boltData.ts] *)

Module BoltData.

Record BoltProperties : Type := mkBolt {
  grade : string;
  size : string;
  phiVf : R;
  phiNtf : R;
  tensileArea : R;
  fuf : R
}.

Definition boltData : list BoltProperties := [
  mkBolt "Grade 4.6" "M12" 16.7 27 84.3 400;
  mkBolt "Grade 4.6" "M16" 31.1 50.1 156.7 400;
  mkBolt "Grade 4.6" "M20" 48.6 78.3 244.8 400;
  mkBolt "Grade 4.6" "M22" 60.2 97.1 303.4 400;
  mkBolt "Grade 4.6" "M24" 69.9 112.8 352.5 400;
  mkBolt "Grade 4.6" "M27" 91.1 147 459.4 400;
  mkBolt "Grade 4.6" "M30" 111.2 179.4 560.6 400;
  mkBolt "Grade 4.6" "M36" 162 261.4 816.7 400;
  mkBolt "Grade 8.8" "M12" 34.7 56 84.3 830;
  mkBolt "Grade 8.8" "M16" 64.5 104 156.7 830;
  mkBolt "Grade 8.8" "M20" 100.8 162.5 244.8 830;
  mkBolt "Grade 8.8" "M22" 124.9 201.5 303.4 830;
  mkBolt "Grade 8.8" "M24" 145.1 234.1 352.5 830;
  mkBolt "Grade 8.8" "M27" 189.1 305 459.4 830;
  mkBolt "Grade 8.8" "M30" 230.8 372.2 560.6 830;
  mkBolt "Grade 8.8" "M36" 336.2 542.3 816.7 830;
  mkBolt "Grade 10.9" "M12" 43.1 69.4 84.3 1030;
  mkBolt "Grade 10.9" "M16" 80 129.1 156.7 1030;
  mkBolt "Grade 10.9" "M20" 125.1 201.7 244.8 1030;
  mkBolt "Grade 10.9" "M22" 155 250 303.4 1030;
  mkBolt "Grade 10.9" "M24" 180.1 290.5 352.5 1030;
  mkBolt "Grade 10.9" "M27" 234.7 378.6 459.4 1030;
  mkBolt "Grade 10.9" "M30" 286.4 461.9 560.6 1030;
  mkBolt "Grade 10.9" "M36" 417.2 673 816.7 1030
].

(** The predicate of [boltData.find(bolt => bolt.grade === grade &&
    bolt.size === size)]. *)
Definition matches (g s : string) (bolt : BoltProperties) : bool :=
  String.eqb (grade bolt) g && String.eqb (size bolt) s.

(** [getBoltProperties]: [Array.prototype.find] gives the first element that
    satisfies the predicate, [undefined] ([None]) when there is none. *)
Definition getBoltProperties (g s : string) : option BoltProperties :=
  find (matches g s) boltData.

(** [Array.from(new Set(xs))]: a [Set] keeps a value once, at the place of
    its first insertion, and iterates in insertion order. *)
Definition setFrom (xs : list string) : list string :=
  fold_left
    (fun acc s => if existsb (String.eqb s) acc then acc else acc ++ [s])
    xs [].

Definition getBoltGrades : list string := setFrom (map grade boltData).

Definition getBoltSizes (g : string) : list string :=
  map size (filter (fun bolt => String.eqb (grade bolt) g) boltData).

End BoltData.

(** ** The calculation of [App] *)

Module App.

Import BoltData.

Record BoltPosition : Type := mkPos { x : R; y : R }.

Inductive BoltArrangement : Type := rectangular | circular.

Record Inputs : Type := mkInputs {
  arrangement : BoltArrangement;
  numRows : nat;
  numCols : nat;
  rowSpacing : R;
  colSpacing : R;
  diameter : R;
  numBolts : nat;
  vx : R;
  vy : R;
  tb : R;
  mb : R;
  mm : R;
  nt : R;
  boltGrade : string;
  boltSize : string;
  pryingAllowance : R
}.

Record Results : Type := mkResults {
  shearForce : R;
  axialForce : R;
  combinedRatio : R;
  boltPositions : list BoltPosition;
  maxShear : R;
  maxTension : R;
  ibp : R;
  tensileArea : R;
  shearStress : R;
  tensileStress : R
}.

(** The state of the component that the calculation reads and writes:
    [results] and [error]. *)
Record AppState : Type := mkState {
  results : Results;
  error : option string
}.

(** The two [throw new Error(...)] of the calculation effect, named as the
    specification names them; [message] is the text each one carries. *)
Inductive EvalError : Type := InsufficientBoltCount | UnknownBoltSpec.

Definition message (e : EvalError) : string :=
  match e with
  | InsufficientBoltCount => "Minimum 2 bolts required for analysis"
  | UnknownBoltSpec => "Invalid bolt grade and size combination"
  end.

(** *** [calculateBoltLayout] *)

Definition startX (inp : Inputs) : R :=
  - ((INR (numCols inp) - 1) * colSpacing inp) / 2.

Definition startY (inp : Inputs) : R :=
  - ((INR (numRows inp) - 1) * rowSpacing inp) / 2.

(** The body of the inner loop: one position pushed, [ibp] increased. *)
Definition layoutCell (inp : Inputs) (row col : nat)
    (acc : list BoltPosition * R) : list BoltPosition * R :=
  let '(positions, ibp) := acc in
  let x := startX inp + (INR col * colSpacing inp) in
  let y := startY inp + (INR row * rowSpacing inp) in
  (positions ++ [mkPos x y], ibp + (x * x + y * y)).

Definition radius (inp : Inputs) : R := diameter inp / 2.

Definition angleIncrement (inp : Inputs) : R := (2 * PI) / INR (numBolts inp).

Definition circlePush (inp : Inputs) (i : nat)
    (positions : list BoltPosition) : list BoltPosition :=
  let angle := INR i * angleIncrement inp in
  let x := radius inp * cos angle in
  let y := radius inp * sin angle in
  positions ++ [mkPos x y].

Definition calculateBoltLayout (inp : Inputs) : list BoltPosition * R :=
  match arrangement inp with
  | rectangular =>
      for_range (numRows inp)
        (fun row => for_range (numCols inp) (layoutCell inp row))
        ([], 0)
  | circular =>
      let positions := for_range (numBolts inp) (circlePush inp) [] in
      (positions, INR (numBolts inp) * (radius inp * radius inp))
  end.

(** *** The calculation effect *)

(** [numBolts] of the effect: the total bolt count. *)
Definition totalBolts (inp : Inputs) : nat :=
  match arrangement inp with
  | rectangular => (numRows inp * numCols inp)%nat
  | circular => numBolts inp
  end.

Definition verticalShear (inp : Inputs) (n ibp : R) (pos : BoltPosition) : R :=
  (- vy inp * 1000 / n) + ((- tb inp * 1e6) * x pos / ibp).

Definition horizontalShear (inp : Inputs) (n ibp : R) (pos : BoltPosition) : R :=
  (- vx inp * 1000 / n) + ((- tb inp * 1e6) * y pos / ibp).

Definition totalShear (inp : Inputs) (n ibp : R) (pos : BoltPosition) : R :=
  sqrt (verticalShear inp n ibp pos ^ 2 + horizontalShear inp n ibp pos ^ 2)
  / 1000.

Definition ym (inp : Inputs) : R :=
  match arrangement inp with
  | rectangular => (INR (numRows inp) * rowSpacing inp) / 2
  | circular => diameter inp / 2
  end.

Definition xm (inp : Inputs) : R :=
  match arrangement inp with
  | rectangular => (INR (numCols inp) * colSpacing inp) / 2
  | circular => diameter inp / 2
  end.

Definition majorAxisForce (inp : Inputs) (pos : BoltPosition) : R :=
  (mb inp * 1e6 * y pos) / (2 * ym inp * ym inp).

Definition minorAxisForce (inp : Inputs) (pos : BoltPosition) : R :=
  (mm inp * 1e6 * x pos) / (2 * xm inp * xm inp).

Definition pureAxialForce (inp : Inputs) (n : R) : R := nt inp * 1000 / n.

Definition totalAxial (inp : Inputs) (n : R) (pos : BoltPosition) : R :=
  pryingAllowance inp
  * (pureAxialForce inp n + majorAxisForce inp pos + minorAxisForce inp pos)
  / 1000.

(** The callback of [positions.forEach]: the state is the pair
    [(maxShear, maxTension)] of the two [let] variables it assigns. *)
Definition forEachBolt (inp : Inputs) (n ibp : R)
    (acc : R * R) (pos : BoltPosition) : R * R :=
  let '(maxShear, maxTension) := acc in
  (Rmax maxShear (totalShear inp n ibp pos),
   Rmax maxTension (totalAxial inp n pos)).

(** The [try] block after its two guards: layout, the loop over the bolts,
    the combined ratio, the stresses and the record given to [setResults]. *)
Definition analyse (inp : Inputs) (boltProps : BoltProperties) : Results :=
  let numBolts := totalBolts inp in
  let '(positions, ibp) := calculateBoltLayout inp in
  let '(maxShear, maxTension) :=
    fold_left (forEachBolt inp (INR numBolts) ibp) positions (0, 0) in
  let combinedRatio :=
    (maxShear / phiVf boltProps) ^ 2 + (maxTension / phiNtf boltProps) ^ 2 in
  let shearStress := (maxShear * 1000) / BoltData.tensileArea boltProps in
  let tensileStress := (maxTension * 1000) / BoltData.tensileArea boltProps in
  mkResults maxShear maxTension combinedRatio positions
    (phiVf boltProps) (phiNtf boltProps) ibp
    (BoltData.tensileArea boltProps) shearStress tensileStress.

(** The [try] block: either an error is thrown or [setResults] receives the
    record of [analyse]. *)
Definition calculate (inp : Inputs) : EvalError + Results :=
  let numBolts := totalBolts inp in
  if (numBolts <? 2)%nat then inl InsufficientBoltCount
  else
    match getBoltProperties (boltGrade inp) (boltSize inp) with
    | None => inl UnknownBoltSpec
    | Some boltProps => inr (analyse inp boltProps)
    end.

(** The whole effect: on success [setResults(...)] and [setError(null)], in
    the [catch] branch [setError(err.message)] only. *)
Definition calculationEffect (inp : Inputs) (st : AppState) : AppState :=
  match calculate inp with
  | inr r => mkState r None
  | inl e => mkState (results st) (Some (message e))
  end.

(** The banner under the results: [results.combinedRatio <= 1] selects
    "Design is acceptable", otherwise "Design exceeds limits". *)
Definition designAcceptable (r : Results) : bool :=
  if Rle_dec (combinedRatio r) 1 then true else false.

(** The values of [totalShear] and [totalAxial] the callback computes, bolt
    by bolt in the order of [positions]. *)
Definition boltShears (inp : Inputs) : list R :=
  let '(positions, ibp) := calculateBoltLayout inp in
  map (totalShear inp (INR (totalBolts inp)) ibp) positions.

Definition boltTensions (inp : Inputs) : list R :=
  let '(positions, _) := calculateBoltLayout inp in
  map (totalAxial inp (INR (totalBolts inp))) positions.

(** [{ ...prev, boltSize: s }]. *)
Definition setBoltSize (inp : Inputs) (s : string) : Inputs :=
  mkInputs (arrangement inp) (numRows inp) (numCols inp) (rowSpacing inp)
    (colSpacing inp) (diameter inp) (numBolts inp)
    (vx inp) (vy inp) (tb inp) (mb inp) (mm inp) (nt inp)
    (boltGrade inp) s (pryingAllowance inp).

(** The effect that follows [inputs.boltGrade]: the sizes of the grade become
    [availableSizes] (first component), and when the selected size is not
    among them [boltSize] is set to [sizes[0]].  With no size at all
    [sizes[0]] is [undefined], which no [Inputs] of this model holds: the
    second component is [None] then. *)
Definition gradeEffect (inp : Inputs) : list string * option Inputs :=
  let sizes := getBoltSizes (boltGrade inp) in
  (sizes,
   if negb (existsb (String.eqb (boltSize inp)) sizes)
   then match nth_error sizes 0 with
        | Some s => Some (setBoltSize inp s)
        | None => None
        end
   else Some inp).

(** Colour classes of the utilisation figures. *)
Inductive UtilisationColor : Type := text_green_600 | text_red_600.

Definition getUtilisationColor (value : R) : UtilisationColor :=
  if Rle_dec value 1.0 then text_green_600 else text_red_600.

End App.

(** ** The history of saved calculations, in [App] *)

Module Saved.

Import App.

Record BoltCalculation : Type := mkCalculation {
  shearForce : R;
  axialForce : R;
  shearUtilisation : R;
  tensionUtilisation : R;
  combinedRatio : R;
  boltSize : string;
  boltGrade : string;
  timestamp : string
}.

(** [saveCalculation]: [today] is the text [formatDate(new Date())] gives
    when the button is pressed. *)
Definition saveCalculation (inp : Inputs) (res : Results) (today : string)
    (savedCalculations : list BoltCalculation) : list BoltCalculation :=
  let calculation :=
    mkCalculation (App.shearForce res) (App.axialForce res)
      (App.shearForce res / App.maxShear res)
      (App.axialForce res / App.maxTension res)
      (App.combinedRatio res) (App.boltSize inp) (App.boltGrade inp) today in
  savedCalculations ++ [calculation].

End Saved.

(** ** [calculateBoltForces] of the [BoltPattern] component *)

Module BoltPattern.

Import App.

Record BoltPatternProps : Type := mkProps {
  arrangement : BoltArrangement;
  numRows : nat;
  numCols : nat;
  rowSpacing : R;
  colSpacing : R;
  diameter : R;
  numBolts : nat;
  boltSize : string;
  vx : R;
  vy : R;
  tb : R;
  mb : R;
  mm : R;
  nt : R;
  pryingAllowance : R
}.

(** An element of the array [calculateBoltForces] returns. *)
Record BoltForce : Type := mkForce {
  x : R;
  y : R;
  shear : R;
  tension : R
}.

(** The [<BoltPattern ... />] element of [App]: every property is read from
    the field of [inputs] of the same name. *)
Definition propsOf (inp : Inputs) : BoltPatternProps :=
  mkProps (App.arrangement inp) (App.numRows inp) (App.numCols inp)
    (App.rowSpacing inp) (App.colSpacing inp) (App.diameter inp)
    (App.numBolts inp) (App.boltSize inp)
    (App.vx inp) (App.vy inp) (App.tb inp) (App.mb inp) (App.mm inp)
    (App.nt inp) (App.pryingAllowance inp).

Definition totalBolts (p : BoltPatternProps) : nat :=
  match arrangement p with
  | rectangular => (numRows p * numCols p)%nat
  | circular => numBolts p
  end.

Definition centerX (p : BoltPatternProps) : R :=
  ((INR (numCols p) - 1) * colSpacing p) / 2.

Definition centerY (p : BoltPatternProps) : R :=
  ((INR (numRows p) - 1) * rowSpacing p) / 2.

(** Body of the first pair of loops ("Calculate Ibp first"). *)
Definition ibpCell (p : BoltPatternProps) (row col : nat) (ibp : R) : R :=
  let x := INR col * colSpacing p - centerX p in
  let y := INR row * rowSpacing p - centerY p in
  ibp + (x * x + y * y).

(** Body of the second pair of loops: the forces of one bolt, pushed. *)
Definition forceCell (p : BoltPatternProps) (ibp : R) (row col : nat)
    (positions : list BoltForce) : list BoltForce :=
  let x := INR col * colSpacing p - centerX p in
  let y := INR row * rowSpacing p - centerY p in
  let shearX :=
    (- vx p * 1000 / INR (totalBolts p)) + ((- tb p * 1e6) * y / ibp) in
  let shearY :=
    (- vy p * 1000 / INR (totalBolts p)) + ((- tb p * 1e6) * x / ibp) in
  let totalShear := sqrt (shearX * shearX + shearY * shearY) / 1000 in
  let ym := (INR (numRows p) * rowSpacing p) / 2 in
  let xm := (INR (numCols p) * colSpacing p) / 2 in
  let majorAxisForce := (mb p * 1e6 * y) / (2 * ym * ym) in
  let minorAxisForce := (mm p * 1e6 * x) / (2 * xm * xm) in
  let pureAxialForce := nt p * 1000 / INR (totalBolts p) in
  let totalTension :=
    pryingAllowance p * (pureAxialForce + majorAxisForce + minorAxisForce)
    / 1000 in
  positions
  ++ [mkForce (INR col * colSpacing p) (INR row * rowSpacing p)
        totalShear totalTension].

(** Body of the loop of the circular branch. *)
Definition forceOnCircle (p : BoltPatternProps) (radius ibp angleIncrement : R)
    (i : nat) (positions : list BoltForce) : list BoltForce :=
  let angle := INR i * angleIncrement in
  let x := radius * cos angle in
  let y := radius * sin angle in
  let shearX :=
    (- vx p * 1000 / INR (totalBolts p)) + ((- tb p * 1e6) * y / ibp) in
  let shearY :=
    (- vy p * 1000 / INR (totalBolts p)) + ((- tb p * 1e6) * x / ibp) in
  let totalShear := sqrt (shearX * shearX + shearY * shearY) / 1000 in
  let majorAxisForce := (mb p * 1e6 * y) / (2 * radius * radius) in
  let minorAxisForce := (mm p * 1e6 * x) / (2 * radius * radius) in
  let pureAxialForce := nt p * 1000 / INR (totalBolts p) in
  let totalTension :=
    pryingAllowance p * (pureAxialForce + majorAxisForce + minorAxisForce)
    / 1000 in
  positions ++ [mkForce (x + radius) (y + radius) totalShear totalTension].

Definition calculateBoltForces (p : BoltPatternProps) : list BoltForce :=
  match arrangement p with
  | rectangular =>
      let ibp :=
        for_range (numRows p)
          (fun row => for_range (numCols p) (ibpCell p row)) 0 in
      for_range (numRows p)
        (fun row => for_range (numCols p) (forceCell p ibp row)) []
  | circular =>
      let radius := diameter p / 2 in
      let ibp := INR (totalBolts p) * radius * radius in
      let angleIncrement := (2 * PI) / INR (totalBolts p) in
      for_range (totalBolts p) (forceOnCircle p radius ibp angleIncrement) []
  end.

(** [Math.max(...values)]: the largest of the values; the call without
    arguments gives [-Infinity], which is [None] here. *)
Definition mathMax (values : list R) : option R :=
  match values with
  | [] => None
  | v :: rest => Some (fold_left Rmax rest v)
  end.

(** [maxShear] and [maxTension] of the component: largest absolute values
    over the bolts. *)
Definition maxShear (p : BoltPatternProps) : option R :=
  mathMax (map (fun b => Rabs (shear b)) (calculateBoltForces p)).

Definition maxTension (p : BoltPatternProps) : option R :=
  mathMax (map (fun b => Rabs (tension b)) (calculateBoltForces p)).

(** A row of the table of bolt forces (second copy of the component): the
    coordinates relative to the centre of the drawing, and the mark of the
    bolt governing in shear. *)
Definition tableCenterX (p : BoltPatternProps) : R :=
  match arrangement p with
  | rectangular => ((INR (numCols p) - 1) * colSpacing p) / 2
  | circular => diameter p / 2
  end.

Definition tableCenterY (p : BoltPatternProps) : R :=
  match arrangement p with
  | rectangular => ((INR (numRows p) - 1) * rowSpacing p) / 2
  | circular => diameter p / 2
  end.

Definition relX (p : BoltPatternProps) (bolt : BoltForce) : R :=
  x bolt - tableCenterX p.

Definition relY (p : BoltPatternProps) (bolt : BoltForce) : R :=
  y bolt - tableCenterY p.

(** [Math.abs(bolt.shear - maxShear) < 0.01]; against [-Infinity] the
    difference is infinite and the test fails.  The shears are numbers when
    the polar moment is not zero; the statements about this test assume
    it. *)
Definition isMaxShear (p : BoltPatternProps) (bolt : BoltForce) : bool :=
  match maxShear p with
  | Some m => if Rlt_dec (Rabs (shear bolt - m)) 0.01 then true else false
  | None => false
  end.

(** The canvas of the drawing and the place of a bolt on it, with the
    constants of the first copy of the component (the second copy has the
    same formulas and [padding = 80]). *)
Definition scale : R := 0.8.

Definition padding : R := 60.

Definition width (p : BoltPatternProps) : R :=
  match arrangement p with
  | rectangular => (colSpacing p * (INR (numCols p) - 1)) * scale + 2 * padding
  | circular => diameter p * scale + 2 * padding
  end.

Definition height (p : BoltPatternProps) : R :=
  match arrangement p with
  | rectangular => (rowSpacing p * (INR (numRows p) - 1)) * scale + 2 * padding
  | circular => diameter p * scale + 2 * padding
  end.

Definition scaledX (bolt : BoltForce) : R := padding + x bolt * scale.

Definition scaledY (bolt : BoltForce) : R := padding + y bolt * scale.

End BoltPattern.

(** ** The same expressions in IEEE binary64 *)

(** [+], [-], [*], [/] and [Math.sqrt] are the correctly rounded operations
    of [PrimFloat], a decimal literal is the nearest double, and [v ** 2] is
    taken as [v * v].  Of the circular branch only what needs no cosine or
    sine is evaluated: the polar moment, and bolt 0, whose angle is
    [0 * angleIncrement = 0], with [Math.cos(0) = 1] and [Math.sin(0) = 0]. *)
Module Doubles.

Import PrimFloat.

#[local] Set Warnings "-inexact-float".

Local Open Scope float_scope.

(** The value of a loop counter after [n] increments ([col++] from [0]); a
    whole count is this double too. *)
Definition counter (n : nat) : float := Nat.iter n (fun c => c + 1) 0.

Record BoltPosition : Type := mkPos { x : float; y : float }.

(** The rectangular branch of [calculateBoltLayout]. *)
Definition startX (numCols : nat) (colSpacing : float) : float :=
  - ((counter numCols - 1) * colSpacing) / 2.

Definition startY (numRows : nat) (rowSpacing : float) : float :=
  - ((counter numRows - 1) * rowSpacing) / 2.

Definition layoutCell (numRows numCols : nat) (rowSpacing colSpacing : float)
    (row col : nat) (acc : list BoltPosition * float)
    : list BoltPosition * float :=
  let '(positions, ibp) := acc in
  let x := startX numCols colSpacing + (counter col * colSpacing) in
  let y := startY numRows rowSpacing + (counter row * rowSpacing) in
  (positions ++ [mkPos x y], ibp + (x * x + y * y)).



(** The polar moment of the circular branch of [calculateBoltLayout],
    [inputs.numBolts * (radius * radius)], and bolt 0 of that branch. *)
Definition circularIbp (numBolts : nat) (diameter : float) : float :=
  let radius := diameter / 2 in
  counter numBolts * (radius * radius).

Definition firstCircularBolt (diameter : float) : BoltPosition :=
  let radius := diameter / 2 in
  mkPos (radius * 1) (radius * 0).

(** [totalShear] of the callback of [App]. *)
Definition totalShear (vx vy tb numBolts ibp : float) (pos : BoltPosition)
    : float :=
  let verticalShear := (- vy * 1000 / numBolts) + ((- tb * 1e6) * x pos / ibp) in
  let horizontalShear :=
    (- vx * 1000 / numBolts) + ((- tb * 1e6) * y pos / ibp) in
  sqrt (verticalShear * verticalShear + horizontalShear * horizontalShear)
  / 1000.

(** The circular branch of [calculateBoltForces] of the pattern component:
    its polar moment, [totalBolts * radius * radius], and [totalShear] of a
    bolt at [(x, y)]. *)
Definition patternCircularIbp (totalBolts : nat) (diameter : float) : float :=
  let radius := diameter / 2 in
  counter totalBolts * radius * radius.

Definition patternTotalShear (vx vy tb totalBolts ibp x y : float) : float :=
  let shearX := (- vx * 1000 / totalBolts) + ((- tb * 1e6) * y / ibp) in
  let shearY := (- vy * 1000 / totalBolts) + ((- tb * 1e6) * x / ibp) in
  sqrt (shearX * shearX + shearY * shearY) / 1000.

End Doubles.

(** ** Vocabulary of the statements *)

Module Spec.

Import App.

(** Sum of a list of reals. *)
Definition sumR (l : list R) : R := fold_right Rplus 0 l.

(** [m] is the maximum of the values of [l] : one of them, and above all. *)
Definition is_max_of (l : list R) (m : R) : Prop :=
  In m l /\ forall v, In v l -> v <= m.

(** The invariants the data model puts on an arrangement. *)
Definition validArrangement (inp : Inputs) : Prop :=
  match arrangement inp with
  | rectangular =>
      (1 <= numRows inp)%nat /\ (1 <= numCols inp)%nat
      /\ 0 < rowSpacing inp /\ 0 < colSpacing inp
  | circular => 0 < diameter inp /\ (2 <= numBolts inp)%nat
  end.

(** The preconditions of the data model under which the layout is used:
    positive spacings or diameter, and at least two bolts in total. *)
Definition layoutPrecondition (inp : Inputs) : Prop :=
  match arrangement inp with
  | rectangular =>
      0 < rowSpacing inp /\ 0 < colSpacing inp
      /\ (2 <= numRows inp * numCols inp)%nat
  | circular => 0 < diameter inp /\ (2 <= numBolts inp)%nat
  end.

(** All load components but the axial force are zero. *)
Definition axialOnly (inp : Inputs) : Prop :=
  vx inp = 0 /\ vy inp = 0 /\ tb inp = 0 /\ mb inp = 0 /\ mm inp = 0.

(** The position [calculateBoltLayout] pushes for the cell [(row, col)] of a
    rectangular arrangement, and for bolt [i] of a circular one. *)
Definition gridPos (inp : Inputs) (row col : nat) : BoltPosition :=
  mkPos (startX inp + (INR col * colSpacing inp))
        (startY inp + (INR row * rowSpacing inp)).

Definition circlePos (inp : Inputs) (i : nat) : BoltPosition :=
  mkPos (radius inp * cos (INR i * angleIncrement inp))
        (radius inp * sin (INR i * angleIncrement inp)).

(** Enumeration order of the nested loops: rows outside, columns inside. *)
Definition gridCells (rows cols : nat) : list (nat * nat) :=
  flat_map (fun row => map (fun col => (row, col)) (seq 0 cols)) (seq 0 rows).

Definition sq (pos : BoltPosition) : R := x pos * x pos + y pos * y pos.

Definition gridPositions (inp : Inputs) : list BoltPosition :=
  map (fun rc => gridPos inp (fst rc) (snd rc))
    (gridCells (numRows inp) (numCols inp)).

Definition circlePositions (inp : Inputs) : list BoltPosition :=
  map (circlePos inp) (seq 0 (numBolts inp)).

(** The formulas of the specification, written as it writes them: the
    resultant shear of the bolt at [(x, y)], its tension, and the two
    reference half-depths. *)
Definition specShear (Vx Vy Tb n Ibp x y : R) : R :=
  sqrt ((- Vx * 1000 / n + (- Tb * 1e6) * y / Ibp) ^ 2
        + (- Vy * 1000 / n + (- Tb * 1e6) * x / Ibp) ^ 2) / 1000.

Definition specTension (alpha Nt Mb Mm n ym xm x y : R) : R :=
  alpha * (Nt * 1000 / n + Mb * 1e6 * y / (2 * ym ^ 2)
           + Mm * 1e6 * x / (2 * xm ^ 2)) / 1000.

Definition specYm (inp : Inputs) : R :=
  match arrangement inp with
  | rectangular => INR (numRows inp) * rowSpacing inp / 2
  | circular => diameter inp / 2
  end.

Definition specXm (inp : Inputs) : R :=
  match arrangement inp with
  | rectangular => INR (numCols inp) * colSpacing inp / 2
  | circular => diameter inp / 2
  end.

(** The default inputs of [App] ([useState] initial value), with the
    arrangement, the counts and the loads left open. *)
Definition sampleInputs (a : BoltArrangement) (rows cols bolts : nat)
    (vx vy tb mb mm nt : R) : Inputs :=
  mkInputs a rows cols 150 160 400 bolts vx vy tb mb mm nt
    "Grade 8.8" "M24" 1.1.

(** The initial value of [inputs]. *)
Definition defaultInputs : Inputs :=
  sampleInputs rectangular 4 4 8 20 5 10 50 10 10.

(** Inputs that select a size the catalog does not have, for a single bolt
    and for the default 4 by 4 grid. *)
Definition unknownSizeInputs (rows cols : nat) : Inputs :=
  mkInputs rectangular rows cols 150 160 400 8 20 5 10 50 10 10
    "Grade 8.8" "M99" 1.1.

(** The inputs with each of the six load components multiplied by [k]. *)
Definition scaleLoads (k : R) (inp : Inputs) : Inputs :=
  mkInputs (arrangement inp) (numRows inp) (numCols inp) (rowSpacing inp)
    (colSpacing inp) (diameter inp) (numBolts inp)
    (k * vx inp) (k * vy inp) (k * tb inp) (k * mb inp) (k * mm inp)
    (k * nt inp) (boltGrade inp) (boltSize inp) (pryingAllowance inp).

(** The initial value of [results]. *)
Definition initialResults : Results := mkResults 0 0 0 [] 0 0 0 0 0 0.

Definition initialState : AppState := mkState initialResults None.

End Spec.

(** ** Loops as maps and sums *)

Section Loops.

Context {A S : Type}.

Lemma for_range_push {B : Type} (f : B -> A) (l : list B) (acc : list A) :
  fold_left (fun acc i => acc ++ [f i]) l acc = acc ++ map f l.
Proof.
  revert acc; induction l as [|i l IH]; intros acc; simpl.
  - now rewrite app_nil_r.
  - rewrite IH, <- app_assoc. reflexivity.
Qed.

(** Two nested loops run their body over the cells in row-major order. *)
Lemma nested_loops (body : nat -> nat -> S -> S) (rows cols : list nat) (s : S) :
  fold_left (fun acc row => fold_left (fun acc' col => body row col acc') cols acc)
    rows s
  = fold_left (fun acc rc => body (fst rc) (snd rc) acc)
      (flat_map (fun row => map (fun col => (row, col)) cols) rows) s.
Proof.
  revert s; induction rows as [|r rows IH]; intros s; simpl; [reflexivity|].
  rewrite fold_left_app, IH. f_equal.
  generalize s. clear. induction cols as [|c cols IHc]; intros s; simpl.
  - reflexivity.
  - apply IHc.
Qed.

End Loops.

(** ** The layout in closed form *)

Section Layout.

Import App Spec.

Variable inp : Inputs.

Lemma fold_layoutCell (cells : list (nat * nat)) (ps : list BoltPosition) (s : R) :
  fold_left (fun acc rc => layoutCell inp (fst rc) (snd rc) acc) cells (ps, s)
  = (ps ++ map (fun rc => gridPos inp (fst rc) (snd rc)) cells,
     s + sumR (map (fun rc => sq (gridPos inp (fst rc) (snd rc))) cells)).
Proof.
  revert ps s; induction cells as [|[r c] cells IH]; intros ps s; simpl.
  - rewrite app_nil_r. f_equal. lra.
  - rewrite IH, <- app_assoc. simpl. f_equal. unfold sq, gridPos; simpl. lra.
Qed.

Lemma layout_rectangular :
  arrangement inp = rectangular ->
  calculateBoltLayout inp
  = (gridPositions inp, sumR (map sq (gridPositions inp))).
Proof.
  intros Ha. unfold calculateBoltLayout, for_range. rewrite Ha.
  rewrite (nested_loops (layoutCell inp)).
  rewrite fold_layoutCell. simpl. unfold gridPositions, gridCells.
  rewrite map_map. f_equal. lra.
Qed.

Lemma layout_circular :
  arrangement inp = circular ->
  calculateBoltLayout inp
  = (circlePositions inp, INR (numBolts inp) * (radius inp * radius inp)).
Proof.
  intros Ha. unfold calculateBoltLayout, for_range. rewrite Ha.
  unfold circlePush. cbv zeta.
  rewrite (for_range_push (circlePos inp)). reflexivity.
Qed.

Lemma gridCells_length (rows cols : nat) :
  List.length (gridCells rows cols) = (rows * cols)%nat.
Proof.
  unfold gridCells. generalize 0%nat at 2.
  induction rows as [|rows IH]; intros k; simpl; [reflexivity|].
  rewrite length_app, length_map, length_seq, IH. reflexivity.
Qed.

Lemma layout_length :
  List.length (fst (calculateBoltLayout inp)) = totalBolts inp.
Proof.
  unfold totalBolts. destruct (arrangement inp) eqn:Ha.
  - rewrite layout_rectangular by exact Ha. simpl.
    unfold gridPositions. now rewrite length_map, gridCells_length.
  - rewrite layout_circular by exact Ha. simpl.
    unfold circlePositions. now rewrite length_map, length_seq.
Qed.

End Layout.

(** ** Per-bolt forces *)

Section BoltForces.

Import App Spec.

(** C1. For an arrangement of [n >= 2] bolts and any loads, the resultant
    shear the engine computes for the bolt at [(x, y)] is
    [sqrt((-Vx*1000/n + (-Tb*1e6)*y/Ibp)^2 + (-Vy*1000/n + (-Tb*1e6)*x/Ibp)^2)/1000],
    bolt by bolt in the order of the layout, [Ibp] being the polar moment the
    layout step returns. *)
Theorem bolt_shear_formula (inp : Inputs) :
  (2 <= totalBolts inp)%nat ->
  boltShears inp
  = map (fun pos =>
           specShear (vx inp) (vy inp) (tb inp) (INR (totalBolts inp))
             (snd (calculateBoltLayout inp)) (x pos) (y pos))
      (fst (calculateBoltLayout inp)).
Proof.
  intros _. unfold boltShears.
  destruct (calculateBoltLayout inp) as [positions ibp]; simpl.
  apply map_ext; intros pos.
  unfold totalShear, verticalShear, horizontalShear, specShear.
  now rewrite Rplus_comm.
Qed.

Lemma bolt_shear_formula_witness :
  (2 <= totalBolts defaultInputs)%nat
  /\ boltShears defaultInputs
     = map (fun pos =>
              specShear 20 5 10 16
                (snd (calculateBoltLayout defaultInputs)) (x pos) (y pos))
         (fst (calculateBoltLayout defaultInputs)).
Proof.
  split; [vm_compute; lia|].
  rewrite (bolt_shear_formula defaultInputs) by (vm_compute; lia).
  apply map_ext; intros pos. simpl. f_equal. lra.
Defined.

(** C2. For an arrangement of [n >= 2] bolts, any loads and any prying
    allowance [alpha], the tension the engine computes for the bolt at
    [(x, y)] is
    [alpha*(Nt*1000/n + Mb*1e6*y/(2*ym^2) + Mm*1e6*x/(2*xm^2))/1000], with
    [ym = numRows*rowSpacing/2] and [xm = numCols*colSpacing/2] for a
    rectangular arrangement and [ym = xm = diameter/2] for a circular one.
    Nothing clips the bending terms: there are valid inputs for which a
    bolt's tension is negative. *)
Theorem bolt_tension_formula :
  (forall inp : Inputs,
      (2 <= totalBolts inp)%nat ->
      boltTensions inp
      = map (fun pos =>
               specTension (pryingAllowance inp) (nt inp) (mb inp) (mm inp)
                 (INR (totalBolts inp)) (specYm inp) (specXm inp)
                 (x pos) (y pos))
          (fst (calculateBoltLayout inp)))
  /\ (exists inp : Inputs,
        validArrangement inp /\ (2 <= totalBolts inp)%nat
        /\ 0 < nt inp
        /\ exists t, In t (boltTensions inp) /\ t < 0).
Proof.
  split.
  - intros inp _. unfold boltTensions.
    destruct (calculateBoltLayout inp) as [positions ibp]; simpl.
    apply map_ext; intros pos.
    unfold totalAxial, pureAxialForce, majorAxisForce, minorAxisForce,
      specTension.
    replace (specYm inp) with (ym inp) by reflexivity.
    replace (specXm inp) with (xm inp) by reflexivity.
    simpl pow. rewrite !Rmult_1_r, !Rmult_assoc. reflexivity.
  - exists (sampleInputs rectangular 1 2 8 0 0 0 0 10 1).
    split; [cbv [validArrangement sampleInputs arrangement numRows numCols
                   rowSpacing colSpacing]; repeat split; (lia || lra)|].
    split; [vm_compute; lia|]. split; [simpl; lra|].
    unfold boltTensions. rewrite layout_rectangular by reflexivity.
    eexists. split; [left; reflexivity|].
    unfold totalAxial, pureAxialForce, majorAxisForce, minorAxisForce, xm, ym,
      gridPos, startX, startY. simpl.
    lra.
Qed.

Lemma bolt_tension_formula_witness :
  (2 <= totalBolts defaultInputs)%nat
  /\ boltTensions defaultInputs
     = map (fun pos =>
              specTension 1.1 10 50 10 16 (specYm defaultInputs)
                (specXm defaultInputs) (x pos) (y pos))
         (fst (calculateBoltLayout defaultInputs)).
Proof.
  split; [vm_compute; lia|].
  rewrite (proj1 bolt_tension_formula defaultInputs) by (vm_compute; lia).
  apply map_ext; intros pos. simpl. f_equal. lra.
Defined.

Lemma boltTensions_length (inp : Inputs) :
  List.length (boltTensions inp) = totalBolts inp.
Proof.
  unfold boltTensions. pose proof (layout_length inp) as H.
  destruct (calculateBoltLayout inp) as [positions ibp]; simpl in *.
  now rewrite length_map.
Qed.

Lemma boltShears_length (inp : Inputs) :
  List.length (boltShears inp) = totalBolts inp.
Proof.
  unfold boltShears. pose proof (layout_length inp) as H.
  destruct (calculateBoltLayout inp) as [positions ibp]; simpl in *.
  now rewrite length_map.
Qed.

Lemma totalAxial_axialOnly (inp : Inputs) (n : R) (pos : BoltPosition) :
  axialOnly inp -> n <> 0 ->
  totalAxial inp n pos = pryingAllowance inp * nt inp / n.
Proof.
  intros (_ & _ & _ & Hmb & Hmm) Hn.
  unfold totalAxial, pureAxialForce, majorAxisForce, minorAxisForce.
  rewrite Hmb, Hmm. unfold Rdiv. rewrite !Rmult_0_l, !Rplus_0_r.
  field. exact Hn.
Qed.

Lemma all_equal_repeat (l : list R) (c : R) :
  (forall t, In t l -> t = c) -> l = repeat c (List.length l).
Proof.
  induction l as [|a l IH]; intros H; simpl; [reflexivity|].
  rewrite (H a) by (left; reflexivity). f_equal.
  apply IH. intros t Ht. apply H. right; exact Ht.
Qed.

Lemma boltTensions_axialOnly (inp : Inputs) :
  (2 <= totalBolts inp)%nat -> axialOnly inp ->
  boltTensions inp
  = repeat (pryingAllowance inp * nt inp / INR (totalBolts inp))
      (totalBolts inp).
Proof.
  intros Hn Hax.
  rewrite <- (boltTensions_length inp) at 2.
  apply all_equal_repeat. intros t Ht.
  unfold boltTensions in Ht.
  destruct (calculateBoltLayout inp) as [positions ibp].
  apply in_map_iff in Ht. destruct Ht as (pos & <- & _).
  apply totalAxial_axialOnly; [exact Hax|].
  apply not_0_INR. lia.
Qed.

(** C7. With every load component zero except the axial force [Nt], each of
    the [n >= 2] bolts of an arrangement gets the tension [alpha*Nt/n], the
    same for all bolts; for a circular arrangement of diameter 400 mm with 8
    bolts, [Nt = 80] kN and [alpha = 1.1] each of the 8 tensions is exactly
    11 kN. *)
Theorem pure_axial_tension :
  (forall inp : Inputs,
      validArrangement inp -> (2 <= totalBolts inp)%nat -> axialOnly inp ->
      boltTensions inp
      = repeat (pryingAllowance inp * nt inp / INR (totalBolts inp))
          (totalBolts inp))
  /\ (forall inp : Inputs,
        arrangement inp = circular -> diameter inp = 400 ->
        numBolts inp = 8%nat -> axialOnly inp -> nt inp = 80 ->
        pryingAllowance inp = 1.1 ->
        boltTensions inp = repeat 11 8).
Proof.
  split.
  - intros inp _ Hn Hax. apply boltTensions_axialOnly; assumption.
  - intros inp Ha Hd Hb Hax Hnt Hal.
    assert (Hn : totalBolts inp = 8%nat) by (unfold totalBolts; now rewrite Ha).
    rewrite boltTensions_axialOnly by (rewrite ?Hn; (lia || assumption)).
    rewrite Hn, Hnt, Hal. f_equal. simpl. lra.
Qed.

Lemma pure_axial_tension_witness :
  (validArrangement (sampleInputs circular 4 4 8 0 0 0 0 0 80)
   /\ (2 <= totalBolts (sampleInputs circular 4 4 8 0 0 0 0 0 80))%nat
   /\ axialOnly (sampleInputs circular 4 4 8 0 0 0 0 0 80))
  /\ boltTensions (sampleInputs circular 4 4 8 0 0 0 0 0 80) = repeat 11 8.
Proof.
  assert (V : validArrangement (sampleInputs circular 4 4 8 0 0 0 0 0 80)).
  { cbv [validArrangement sampleInputs arrangement diameter numBolts].
    split; [lra | lia]. }
  assert (N : (2 <= totalBolts (sampleInputs circular 4 4 8 0 0 0 0 0 80))%nat).
  { vm_compute; lia. }
  assert (X : axialOnly (sampleInputs circular 4 4 8 0 0 0 0 0 80)).
  { repeat split; reflexivity. }
  split; [split; [exact V | split; [exact N | exact X]]|].
  rewrite (proj1 pure_axial_tension _ V N X).
  simpl. repeat f_equal; lra.
Defined.

End BoltForces.

(** ** The capacity lookup *)

Section Catalog.

Import BoltData.

Lemma getBoltProperties_some (g s : string) (b : BoltProperties) :
  getBoltProperties g s = Some b ->
  In b boltData /\ grade b = g /\ size b = s.
Proof.
  unfold getBoltProperties. intros H. apply find_some in H.
  destruct H as [Hin Hm]. unfold matches in Hm.
  apply andb_true_iff in Hm. destruct Hm as [Hg Hs].
  apply String.eqb_eq in Hg, Hs. auto.
Qed.

Lemma getBoltProperties_none (g s : string) :
  getBoltProperties g s = None <->
  forall b, In b boltData -> ~ (grade b = g /\ size b = s).
Proof.
  unfold getBoltProperties. split.
  - intros H b Hin [Hg Hs].
    pose proof (find_none _ _ H b Hin) as Hm. unfold matches in Hm.
    rewrite Hg, Hs, !String.eqb_refl in Hm. discriminate.
  - intros H. destruct (find (matches g s) boltData) as [b|] eqn:E;
      [|reflexivity].
    apply find_some in E. destruct E as [Hin Hm]. unfold matches in Hm.
    apply andb_true_iff in Hm. destruct Hm as [Hg Hs].
    apply String.eqb_eq in Hg, Hs. exfalso. apply (H b Hin). auto.
Qed.

(** No two records of the catalog have the same grade and size, so the first
    match [find] returns is the record itself. *)
Lemma getBoltProperties_in (b : BoltProperties) :
  In b boltData -> getBoltProperties (grade b) (size b) = Some b.
Proof.
  intros H. unfold boltData in H. simpl in H.
  repeat (destruct H as [<-|H]; [reflexivity|]). contradiction.
Qed.

End Catalog.

(** ** Evaluation: guards, errors and the reported record *)

Section Evaluation.

Import BoltData App Spec.

Lemma calculate_few (inp : Inputs) :
  (totalBolts inp < 2)%nat -> calculate inp = inl InsufficientBoltCount.
Proof.
  intros H. unfold calculate. apply Nat.ltb_lt in H. now rewrite H.
Qed.

Lemma calculate_inr (inp : Inputs) (r : Results) :
  calculate inp = inr r ->
  (2 <= totalBolts inp)%nat
  /\ exists b, getBoltProperties (boltGrade inp) (boltSize inp) = Some b
               /\ r = analyse inp b.
Proof.
  unfold calculate. destruct (totalBolts inp <? 2)%nat eqn:E; [discriminate|].
  apply Nat.ltb_ge in E.
  destruct (getBoltProperties (boltGrade inp) (boltSize inp)) as [b|];
    [|discriminate].
  intros H. injection H as <-. split; [exact E|]. exists b. auto.
Qed.

(** C5. An input whose total bolt count is below 2 fails with
    [InsufficientBoltCount]: no result record is produced, the displayed
    results stay what they were and the error message is set.  A rectangular
    arrangement of one row and one column is such an input. *)
Theorem insufficient_bolt_count :
  (forall (inp : Inputs) (st : AppState),
      (totalBolts inp < 2)%nat ->
      calculate inp = inl InsufficientBoltCount
      /\ results (calculationEffect inp st) = results st
      /\ error (calculationEffect inp st)
         = Some (message InsufficientBoltCount))
  /\ (forall inp : Inputs,
        arrangement inp = rectangular ->
        numRows inp = 1%nat -> numCols inp = 1%nat ->
        calculate inp = inl InsufficientBoltCount).
Proof.
  split.
  - intros inp st H. pose proof (calculate_few inp H) as E.
    unfold calculationEffect. rewrite E. auto.
  - intros inp Ha Hr Hc. apply calculate_few.
    unfold totalBolts. rewrite Ha, Hr, Hc. simpl. lia.
Qed.

Lemma insufficient_bolt_count_witness :
  (totalBolts (sampleInputs circular 4 4 1 20 5 10 50 10 10) < 2)%nat
  /\ calculate (sampleInputs circular 4 4 1 20 5 10 50 10 10)
     = inl InsufficientBoltCount
  /\ results (calculationEffect (sampleInputs circular 4 4 1 20 5 10 50 10 10)
                (mkState (analyse defaultInputs
                            (mkBolt "Grade 8.8" "M24" 145.1 234.1 352.5 830))
                         None))
     = analyse defaultInputs (mkBolt "Grade 8.8" "M24" 145.1 234.1 352.5 830).
Proof.
  assert (H : (totalBolts (sampleInputs circular 4 4 1 20 5 10 50 10 10) < 2)%nat)
    by (vm_compute; lia).
  split; [exact H|].
  destruct (proj1 insufficient_bolt_count
              (sampleInputs circular 4 4 1 20 5 10 50 10 10)
              (mkState (analyse defaultInputs
                          (mkBolt "Grade 8.8" "M24" 145.1 234.1 352.5 830))
                       None) H) as (E & R & _).
  split; [exact E | exact R].
Defined.

(** C6, as stated, fails: with a size the catalog lacks and a single bolt,
    the lookup finds nothing and yet the error is not [UnknownBoltSpec],
    because the bolt count is checked first. *)
Lemma unknown_spec_after_count_check :
  getBoltProperties (boltGrade (unknownSizeInputs 1 1))
    (boltSize (unknownSizeInputs 1 1)) = None
  /\ calculate (unknownSizeInputs 1 1) <> inl UnknownBoltSpec.
Proof.
  split; [reflexivity|].
  rewrite calculate_few by (vm_compute; lia). discriminate.
Qed.

(** C6, amended. The lookup returns the record of the catalog with the given
    grade and size when there is one and nothing otherwise, and it is a total
    function.  When the selected pair is absent the engine produces no
    result; the failure is [UnknownBoltSpec] whenever the bolt count is at
    least 2, and then the displayed results stay and the error message is
    set. *)
Theorem capacity_lookup :
  (forall b : BoltProperties,
      In b boltData -> getBoltProperties (grade b) (size b) = Some b)
  /\ (forall g s : string,
        (forall b, In b boltData -> ~ (grade b = g /\ size b = s)) ->
        getBoltProperties g s = None)
  /\ (forall (inp : Inputs) (st : AppState),
        getBoltProperties (boltGrade inp) (boltSize inp) = None ->
        (forall r, calculate inp <> inr r)
        /\ ((2 <= totalBolts inp)%nat ->
            calculate inp = inl UnknownBoltSpec
            /\ results (calculationEffect inp st) = results st
            /\ error (calculationEffect inp st)
               = Some (message UnknownBoltSpec))).
Proof.
  split; [exact getBoltProperties_in|].
  split; [intros g s H; now apply getBoltProperties_none|].
  intros inp st Hnone. split.
  - intros r Hr. apply calculate_inr in Hr.
    destruct Hr as (_ & b & Hb & _). congruence.
  - intros Hn.
    assert (E : calculate inp = inl UnknownBoltSpec).
    { unfold calculate. apply Nat.ltb_ge in Hn. now rewrite Hn, Hnone. }
    unfold calculationEffect. rewrite E. auto.
Qed.

Lemma capacity_lookup_witness :
  getBoltProperties (boltGrade (unknownSizeInputs 4 4))
    (boltSize (unknownSizeInputs 4 4)) = None
  /\ (2 <= totalBolts (unknownSizeInputs 4 4))%nat
  /\ calculate (unknownSizeInputs 4 4) = inl UnknownBoltSpec.
Proof.
  assert (L : getBoltProperties (boltGrade (unknownSizeInputs 4 4))
                (boltSize (unknownSizeInputs 4 4)) = None) by reflexivity.
  assert (N : (2 <= totalBolts (unknownSizeInputs 4 4))%nat)
    by (vm_compute; lia).
  split; [exact L|]. split; [exact N|].
  exact (proj1 (proj2 (proj2 (proj2 capacity_lookup) (unknownSizeInputs 4 4)
                         initialState L) N)).
Defined.

(** C3. After a successful evaluation the combined ratio of the record is
    [(maxShear/phiVf)^2 + (maxTension/phiNtf)^2] for the capacities of the
    selected catalog record, which the record reports too, and the banner
    says "acceptable" exactly when that ratio is at most 1. *)
Theorem combined_ratio_acceptance (inp : Inputs) (st : AppState) (r : Results) :
  calculate inp = inr r ->
  exists b : BoltProperties,
    getBoltProperties (boltGrade inp) (boltSize inp) = Some b
    /\ maxShear r = phiVf b /\ maxTension r = phiNtf b
    /\ combinedRatio r
       = (shearForce r / phiVf b) ^ 2 + (axialForce r / phiNtf b) ^ 2
    /\ results (calculationEffect inp st) = r
    /\ error (calculationEffect inp st) = None
    /\ (designAcceptable (results (calculationEffect inp st)) = true
        <-> (shearForce r / phiVf b) ^ 2 + (axialForce r / phiNtf b) ^ 2 <= 1).
Proof.
  intros H. destruct (calculate_inr inp r H) as (_ & b & Hb & Hr).
  exists b. split; [exact Hb|].
  assert (Hst : calculationEffect inp st = mkState r None)
    by (unfold calculationEffect; now rewrite H).
  assert (Hc : combinedRatio r
               = (shearForce r / phiVf b) ^ 2 + (axialForce r / phiNtf b) ^ 2).
  { subst r. unfold analyse.
    destruct (calculateBoltLayout inp) as [positions ibp].
    destruct (fold_left _ positions (0, 0)) as [ms mt]. reflexivity. }
  assert (Hs : maxShear r = phiVf b /\ maxTension r = phiNtf b).
  { subst r. unfold analyse.
    destruct (calculateBoltLayout inp) as [positions ibp].
    destruct (fold_left _ positions (0, 0)) as [ms mt]. split; reflexivity. }
  destruct Hs as [Hs1 Hs2].
  rewrite Hst. simpl. repeat (split; [assumption || reflexivity|]).
  unfold designAcceptable. rewrite Hc.
  destruct (Rle_dec _ 1) as [Hle|Hnle]; split; intros; try easy.
Qed.

Lemma combined_ratio_acceptance_witness :
  calculate defaultInputs
  = inr (analyse defaultInputs (mkBolt "Grade 8.8" "M24" 145.1 234.1 352.5 830))
  /\ exists b : BoltProperties,
       getBoltProperties "Grade 8.8" "M24" = Some b
       /\ combinedRatio (analyse defaultInputs
                           (mkBolt "Grade 8.8" "M24" 145.1 234.1 352.5 830))
          = (shearForce (analyse defaultInputs
                           (mkBolt "Grade 8.8" "M24" 145.1 234.1 352.5 830))
             / phiVf b) ^ 2
            + (axialForce (analyse defaultInputs
                             (mkBolt "Grade 8.8" "M24" 145.1 234.1 352.5 830))
               / phiNtf b) ^ 2.
Proof.
  assert (E : calculate defaultInputs
              = inr (analyse defaultInputs
                       (mkBolt "Grade 8.8" "M24" 145.1 234.1 352.5 830)))
    by reflexivity.
  split; [exact E|].
  destruct (combined_ratio_acceptance defaultInputs initialState _ E)
    as (b & Hb & _ & _ & Hc & _).
  exists b. split; [exact Hb | exact Hc].
Defined.

End Evaluation.

(** ** The reported maxima *)

Section Maxima.

Import BoltData App Spec.

Lemma fold_Rmax_ge_init (l : list R) (a : R) : a <= fold_left Rmax l a.
Proof.
  revert a; induction l as [|v l IH]; intros a; simpl; [lra|].
  apply Rle_trans with (Rmax a v); [apply Rmax_l | apply IH].
Qed.

Lemma fold_Rmax_ge_in (l : list R) (a v : R) :
  In v l -> v <= fold_left Rmax l a.
Proof.
  revert a; induction l as [|w l IH]; intros a Hin; simpl; [contradiction|].
  destruct Hin as [->|Hin].
  - apply Rle_trans with (Rmax a v); [apply Rmax_r | apply fold_Rmax_ge_init].
  - now apply IH.
Qed.

Lemma fold_Rmax_cases (l : list R) (a : R) :
  fold_left Rmax l a = a \/ In (fold_left Rmax l a) l.
Proof.
  revert a; induction l as [|v l IH]; intros a; simpl; [now left|].
  destruct (IH (Rmax a v)) as [E|Hin]; [|now right; right].
  rewrite E. unfold Rmax. destruct (Rle_dec a v); [right; now left | now left].
Qed.

Lemma fold_Rmax_is_max (l : list R) (a m : R) :
  is_max_of l m -> fold_left Rmax l a = Rmax a m.
Proof.
  intros [Hin Hub]. apply Rle_antisym.
  - destruct (fold_Rmax_cases l a) as [E|H].
    + rewrite E. apply Rmax_l.
    + apply Rle_trans with m; [now apply Hub | apply Rmax_r].
  - apply Rmax_lub; [apply fold_Rmax_ge_init | now apply fold_Rmax_ge_in].
Qed.

Lemma max_exists (l : list R) : l <> [] -> exists m, is_max_of l m.
Proof.
  induction l as [|v l IH]; intros Hne; [contradiction|].
  destruct l as [|w l].
  - exists v. split; [now left|]. intros u [<-|[]]. lra.
  - destruct IH as (m & Hin & Hub); [discriminate|].
    destruct (Rle_dec v m) as [Hle|Hgt].
    + exists m. split; [now right|]. intros u [<-|Hu]; [exact Hle | now apply Hub].
    + exists v. split; [now left|]. intros u [<-|Hu]; [lra|].
      specialize (Hub u Hu). lra.
Qed.

(** The loop over the bolts keeps two independent running maxima. *)
Lemma fold_forEachBolt (inp : Inputs) (n ibp : R) (ps : list BoltPosition)
    (a b : R) :
  fold_left (forEachBolt inp n ibp) ps (a, b)
  = (fold_left Rmax (map (totalShear inp n ibp) ps) a,
     fold_left Rmax (map (totalAxial inp n) ps) b).
Proof.
  revert a b; induction ps as [|p ps IH]; intros a b; simpl; [reflexivity|].
  apply IH.
Qed.

Lemma analyse_maxima (inp : Inputs) (b : BoltProperties) :
  shearForce (analyse inp b) = fold_left Rmax (boltShears inp) 0
  /\ axialForce (analyse inp b) = fold_left Rmax (boltTensions inp) 0.
Proof.
  unfold analyse, boltShears, boltTensions.
  destruct (calculateBoltLayout inp) as [positions ibp].
  rewrite fold_forEachBolt. split; reflexivity.
Qed.

Lemma totalShear_nonneg (inp : Inputs) (n ibp : R) (pos : BoltPosition) :
  0 <= totalShear inp n ibp pos.
Proof.
  unfold totalShear. pose proof (sqrt_pos
    (verticalShear inp n ibp pos ^ 2 + horizontalShear inp n ibp pos ^ 2)).
  lra.
Qed.

Lemma boltShears_nonneg (inp : Inputs) (v : R) : In v (boltShears inp) -> 0 <= v.
Proof.
  unfold boltShears. destruct (calculateBoltLayout inp) as [positions ibp].
  intros H. apply in_map_iff in H. destruct H as (pos & <- & _).
  apply totalShear_nonneg.
Qed.

Lemma nonempty_of_length (l : list R) (n : nat) :
  List.length l = n -> (2 <= n)%nat -> l <> [].
Proof. intros H Hn ->. simpl in H. lia. Qed.

(** C4, as stated, fails: for the circular default arrangement under a
    compressive axial force of 80 kN alone the evaluation succeeds, every
    bolt's tension is -11 kN, and the reported maximum tension is 0, which is
    the tension of no bolt. *)
Lemma max_tension_all_negative :
  calculate (sampleInputs circular 4 4 8 0 0 0 0 0 (-80))
  = inr (analyse (sampleInputs circular 4 4 8 0 0 0 0 0 (-80))
           (mkBolt "Grade 8.8" "M24" 145.1 234.1 352.5 830))
  /\ boltTensions (sampleInputs circular 4 4 8 0 0 0 0 0 (-80)) = repeat (-11) 8
  /\ axialForce (analyse (sampleInputs circular 4 4 8 0 0 0 0 0 (-80))
                   (mkBolt "Grade 8.8" "M24" 145.1 234.1 352.5 830)) = 0
  /\ ~ is_max_of (boltTensions (sampleInputs circular 4 4 8 0 0 0 0 0 (-80)))
         (axialForce (analyse (sampleInputs circular 4 4 8 0 0 0 0 0 (-80))
                        (mkBolt "Grade 8.8" "M24" 145.1 234.1 352.5 830))).
Proof.
  set (inp := sampleInputs circular 4 4 8 0 0 0 0 0 (-80)).
  set (b := mkBolt "Grade 8.8" "M24" 145.1 234.1 352.5 830).
  assert (T : boltTensions inp = repeat (-11) 8).
  { rewrite boltTensions_axialOnly;
      [|vm_compute; lia | repeat split; reflexivity].
    change (totalBolts inp) with 8%nat. f_equal. subst inp; simpl. lra. }
  assert (A : axialForce (analyse inp b) = 0).
  { rewrite (proj2 (analyse_maxima inp b)), T. simpl.
    repeat rewrite (Rmax_left 0 (-11)) by lra. reflexivity. }
  split; [reflexivity|]. split; [exact T|]. split; [exact A|].
  intros [Hin _]. rewrite A, T in Hin. simpl in Hin.
  repeat (destruct Hin as [Hin|Hin]; [lra|]). exact Hin.
Qed.

(** C4, amended. After a successful evaluation the reported maximum shear is
    the maximum of the per-bolt shears, and the reported maximum tension is
    the larger of 0 and the maximum of the per-bolt tensions: the maximum
    itself as soon as one bolt has a tension that is not negative. *)
Theorem reported_maxima (inp : Inputs) (r : Results) :
  calculate inp = inr r ->
  is_max_of (boltShears inp) (shearForce r)
  /\ (exists m, is_max_of (boltTensions inp) m /\ axialForce r = Rmax 0 m)
  /\ ((exists t, In t (boltTensions inp) /\ 0 <= t) ->
      is_max_of (boltTensions inp) (axialForce r)).
Proof.
  intros H. destruct (calculate_inr inp r H) as (Hn & b & _ & ->).
  destruct (analyse_maxima inp b) as [Hs Ht]. rewrite Hs, Ht.
  destruct (max_exists (boltShears inp)) as (ms & Hms);
    [apply (nonempty_of_length _ _ (boltShears_length inp) Hn)|].
  destruct (max_exists (boltTensions inp)) as (mt & Hmt);
    [apply (nonempty_of_length _ _ (boltTensions_length inp) Hn)|].
  rewrite (fold_Rmax_is_max _ 0 ms Hms), (fold_Rmax_is_max _ 0 mt Hmt).
  split; [|split].
  - rewrite Rmax_right; [exact Hms|].
    apply boltShears_nonneg with inp. apply Hms.
  - exists mt. split; [exact Hmt | reflexivity].
  - intros (t & Hin & Hpos). rewrite Rmax_right; [exact Hmt|].
    apply Rle_trans with t; [exact Hpos | now apply Hmt].
Qed.

Lemma reported_maxima_witness :
  calculate defaultInputs
  = inr (analyse defaultInputs (mkBolt "Grade 8.8" "M24" 145.1 234.1 352.5 830))
  /\ is_max_of (boltShears defaultInputs)
       (shearForce (analyse defaultInputs
                      (mkBolt "Grade 8.8" "M24" 145.1 234.1 352.5 830))).
Proof.
  assert (E : calculate defaultInputs
              = inr (analyse defaultInputs
                       (mkBolt "Grade 8.8" "M24" 145.1 234.1 352.5 830)))
    by reflexivity.
  split; [exact E|].
  exact (proj1 (reported_maxima defaultInputs _ E)).
Defined.

End Maxima.

(** ** Sums over the layout: centroid and polar moment *)

Section Sums.

Import App Spec.

Lemma sumR_app (l1 l2 : list R) : sumR (l1 ++ l2) = sumR l1 + sumR l2.
Proof.
  induction l1 as [|a l1 IH]; simpl; [lra|]. rewrite IH. lra.
Qed.

Lemma sumR_flat_map {A B : Type} (g : B -> R) (h : A -> list B) (l : list A) :
  sumR (map g (flat_map h l)) = sumR (map (fun a => sumR (map g (h a))) l).
Proof.
  induction l as [|a l IH]; simpl; [reflexivity|].
  rewrite map_app, sumR_app, IH. reflexivity.
Qed.

Lemma sumR_zero {A : Type} (f : A -> R) (l : list A) :
  (forall a, In a l -> f a = 0) -> sumR (map f l) = 0.
Proof.
  induction l as [|a l IH]; intros H; simpl; [reflexivity|].
  rewrite (H a) by (now left). rewrite IH; [lra|].
  intros a' Ha'. apply H. now right.
Qed.

Lemma sumR_scale {A : Type} (f : A -> R) (c : R) (l : list A) :
  sumR (map (fun a => c * f a) l) = c * sumR (map f l).
Proof.
  induction l as [|a l IH]; simpl; [lra|]. rewrite IH. lra.
Qed.

Lemma sumR_const {A : Type} (c : R) (l : list A) :
  sumR (map (fun _ => c) l) = INR (List.length l) * c.
Proof.
  induction l as [|a l IH]; [simpl; lra|].
  cbn [map sumR fold_right List.length]. fold (sumR (map (fun _ => c) l)).
  rewrite IH, S_INR. lra.
Qed.

Lemma sumR_nonneg (l : list R) : (forall v, In v l -> 0 <= v) -> 0 <= sumR l.
Proof.
  induction l as [|a l IH]; intros H; simpl; [lra|].
  assert (0 <= a) by (apply H; now left).
  assert (0 <= sumR l) by (apply IH; intros v Hv; apply H; now right).
  lra.
Qed.

Lemma sumR_ge_in (l : list R) (v : R) :
  (forall u, In u l -> 0 <= u) -> In v l -> v <= sumR l.
Proof.
  induction l as [|a l IH]; intros H Hin; [contradiction|]. simpl.
  assert (Ha : 0 <= a) by (apply H; now left).
  assert (Hl : 0 <= sumR l)
    by (apply sumR_nonneg; intros u Hu; apply H; now right).
  destruct Hin as [->|Hin]; [lra|].
  assert (v <= sumR l) by (apply IH; [intros u Hu; apply H; now right|exact Hin]).
  lra.
Qed.

(** Sum of an arithmetic progression [a, a + c, ..., a + (n-1) c]. *)
Lemma sumR_affine (a c : R) (n : nat) :
  sumR (map (fun i => a + INR i * c) (seq 0 n))
  = INR n * a + c * (INR n * (INR n - 1) / 2).
Proof.
  induction n as [|n IH].
  - simpl. lra.
  - rewrite seq_S, map_app, sumR_app, IH. simpl sumR. rewrite S_INR.
    simpl (0 + n)%nat. lra.
Qed.

Lemma sumR_grid_x (inp : Inputs) : sumR (map x (gridPositions inp)) = 0.
Proof.
  unfold gridPositions, gridCells. rewrite map_map. simpl.
  rewrite sumR_flat_map. apply sumR_zero. intros row _.
  rewrite map_map. simpl.
  rewrite (sumR_affine (startX inp) (colSpacing inp)).
  unfold startX. lra.
Qed.

Lemma sumR_grid_y (inp : Inputs) : sumR (map y (gridPositions inp)) = 0.
Proof.
  unfold gridPositions, gridCells. rewrite map_map. simpl.
  rewrite sumR_flat_map.
  rewrite (map_ext
             (fun row => sumR (map (fun rc : nat * nat =>
                                      startY inp + INR (fst rc) * rowSpacing inp)
                                 (map (fun col => (row, col))
                                    (seq 0 (numCols inp)))))
             (fun row => INR (numCols inp)
                         * (startY inp + INR row * rowSpacing inp))).
  - rewrite sumR_scale, sumR_affine. unfold startY. lra.
  - intros row. rewrite map_map. simpl.
    rewrite (sumR_const (startY inp + INR row * rowSpacing inp)).
    now rewrite length_seq.
Qed.

(** Sums of cosines and sines of the multiples of an angle, by telescoping
    against [2 sin (theta / 2)]. *)
Lemma cos_telescope (theta : R) (k : nat) :
  2 * sin (theta / 2) * sumR (map (fun i => cos (INR i * theta)) (seq 0 k))
  = sin ((INR k - 1 / 2) * theta) + sin (theta / 2).
Proof.
  induction k as [|k IH].
  - simpl. replace ((0 - 1 / 2) * theta) with (- (theta / 2)) by lra.
    rewrite sin_neg. lra.
  - rewrite seq_S, map_app, sumR_app, Rmult_plus_distr_l, IH, S_INR.
    cbn [map sumR fold_right Nat.add].
    replace ((INR k + 1 - 1 / 2) * theta) with (INR k * theta + theta / 2)
      by lra.
    replace ((INR k - 1 / 2) * theta) with (INR k * theta - theta / 2) by lra.
    rewrite sin_plus, sin_minus. lra.
Qed.

Lemma sin_telescope (theta : R) (k : nat) :
  2 * sin (theta / 2) * sumR (map (fun i => sin (INR i * theta)) (seq 0 k))
  = cos (theta / 2) - cos ((INR k - 1 / 2) * theta).
Proof.
  induction k as [|k IH].
  - simpl. replace ((0 - 1 / 2) * theta) with (- (theta / 2)) by lra.
    rewrite cos_neg. lra.
  - rewrite seq_S, map_app, sumR_app, Rmult_plus_distr_l, IH, S_INR.
    cbn [map sumR fold_right Nat.add].
    replace ((INR k + 1 - 1 / 2) * theta) with (INR k * theta + theta / 2)
      by lra.
    replace ((INR k - 1 / 2) * theta) with (INR k * theta - theta / 2) by lra.
    rewrite cos_plus, cos_minus. lra.
Qed.

Section FullTurn.

Variable n : nat.
Hypothesis n_ge_2 : (2 <= n)%nat.

Lemma INR_ge_2 : 2 <= INR n.
Proof. change 2 with (INR 2). apply le_INR. exact n_ge_2. Qed.

Lemma last_angle : (INR n - 1 / 2) * (2 * PI / INR n) = 2 * PI - (2 * PI / INR n) / 2.
Proof. pose proof INR_ge_2. field. lra. Qed.

Lemma half_angle_sin_pos : 0 < sin ((2 * PI / INR n) / 2).
Proof.
  pose proof INR_ge_2 as Hn. pose proof PI_RGT_0 as Hpi.
  assert (E : (2 * PI / INR n) / 2 = PI / INR n) by (field; lra).
  rewrite E. apply sin_gt_0.
  - apply Rdiv_lt_0_compat; lra.
  - apply Rmult_lt_reg_r with (INR n); [lra|].
    unfold Rdiv. rewrite Rmult_assoc, Rinv_l by lra. nra.
Qed.

Lemma sum_cos_full_turn :
  sumR (map (fun i => cos (INR i * (2 * PI / INR n))) (seq 0 n)) = 0.
Proof.
  pose proof (cos_telescope (2 * PI / INR n) n) as H. rewrite last_angle in H.
  rewrite sin_minus, sin_2PI, cos_2PI in H.
  pose proof half_angle_sin_pos. nra.
Qed.

Lemma sum_sin_full_turn :
  sumR (map (fun i => sin (INR i * (2 * PI / INR n))) (seq 0 n)) = 0.
Proof.
  pose proof (sin_telescope (2 * PI / INR n) n) as H. rewrite last_angle in H.
  rewrite cos_minus, sin_2PI, cos_2PI in H.
  pose proof half_angle_sin_pos. nra.
Qed.

End FullTurn.

Lemma sumR_circle_x (inp : Inputs) :
  (2 <= numBolts inp)%nat -> sumR (map x (circlePositions inp)) = 0.
Proof.
  intros Hn. unfold circlePositions. rewrite map_map. simpl.
  rewrite (sumR_scale (fun i => cos (INR i * angleIncrement inp))).
  unfold angleIncrement. rewrite sum_cos_full_turn by exact Hn. lra.
Qed.

Lemma sumR_circle_y (inp : Inputs) :
  (2 <= numBolts inp)%nat -> sumR (map y (circlePositions inp)) = 0.
Proof.
  intros Hn. unfold circlePositions. rewrite map_map. simpl.
  rewrite (sumR_scale (fun i => sin (INR i * angleIncrement inp))).
  unfold angleIncrement. rewrite sum_sin_full_turn by exact Hn. lra.
Qed.



End Sums.

(** ** The polar moment *)

Section PolarMoment.

Import BoltData App Spec.

Lemma analyse_layout (inp : Inputs) (b : BoltProperties) :
  boltPositions (analyse inp b) = fst (calculateBoltLayout inp)
  /\ ibp (analyse inp b) = snd (calculateBoltLayout inp).
Proof.
  unfold analyse. destruct (calculateBoltLayout inp) as [positions i].
  destruct (fold_left _ positions (0, 0)) as [ms mt]. split; reflexivity.
Qed.

Lemma sq_nonneg (pos : BoltPosition) : 0 <= sq pos.
Proof. unfold sq. nra. Qed.

Lemma first_cell_in_grid (inp : Inputs) :
  (1 <= numRows inp)%nat -> (1 <= numCols inp)%nat ->
  In (gridPos inp 0 0) (gridPositions inp).
Proof.
  intros Hr Hc. unfold gridPositions, gridCells.
  apply in_map_iff. exists (0%nat, 0%nat). split; [reflexivity|].
  apply in_flat_map. exists 0%nat. split; [apply in_seq; lia|].
  apply in_map_iff. exists 0%nat. split; [reflexivity | apply in_seq; lia].
Qed.

(** The bolt of the first row and first column is off the centroid as soon
    as there are two bolts. *)
Lemma first_cell_off_centre (inp : Inputs) :
  0 < rowSpacing inp -> 0 < colSpacing inp ->
  (2 <= numRows inp * numCols inp)%nat ->
  0 < sq (gridPos inp 0 0).
Proof.
  intros Hrs Hcs Hn. unfold sq, gridPos, startX, startY. simpl.
  assert (Hr : 1 <= INR (numRows inp))
    by (change 1 with (INR 1); apply le_INR; nia).
  assert (Hc : 1 <= INR (numCols inp))
    by (change 1 with (INR 1); apply le_INR; nia).
  assert (Hor : (2 <= numRows inp)%nat \/ (2 <= numCols inp)%nat) by nia.
  destruct Hor as [H2|H2]; apply le_INR in H2; change (INR 2) with 2 in H2.
  - assert (0 < (INR (numRows inp) - 1) * rowSpacing inp) by nra.
    set (u := (INR (numRows inp) - 1) * rowSpacing inp) in *.
    set (v := (INR (numCols inp) - 1) * colSpacing inp) in *.
    nra.
  - assert (0 < (INR (numCols inp) - 1) * colSpacing inp) by nra.
    set (u := (INR (numRows inp) - 1) * rowSpacing inp) in *.
    set (v := (INR (numCols inp) - 1) * colSpacing inp) in *.
    nra.
Qed.

(** C9. Under the preconditions of the data model (positive spacings and at
    least two bolts for a rectangular arrangement, positive diameter and at
    least two bolts for a circular one) the polar moment the layout returns,
    which a successful evaluation reports and divides by, is strictly
    positive; single-row and single-column grids are included. *)
Theorem polar_moment_positive (inp : Inputs) :
  layoutPrecondition inp ->
  0 < snd (calculateBoltLayout inp)
  /\ (forall r, calculate inp = inr r -> 0 < ibp r).
Proof.
  intros H.
  assert (P : 0 < snd (calculateBoltLayout inp)).
  { unfold layoutPrecondition in H. destruct (arrangement inp) eqn:Ha.
    - destruct H as (Hrs & Hcs & Hn).
      rewrite layout_rectangular by exact Ha. simpl.
      apply Rlt_le_trans with (sq (gridPos inp 0 0)).
      + now apply first_cell_off_centre.
      + apply sumR_ge_in.
        * intros u Hu. apply in_map_iff in Hu. destruct Hu as (p & <- & _).
          apply sq_nonneg.
        * apply in_map. apply first_cell_in_grid; nia.
    - destruct H as (Hd & Hn).
      rewrite layout_circular by exact Ha. simpl. unfold radius.
      assert (2 <= INR (numBolts inp)) by (apply INR_ge_2; exact Hn).
      assert (0 < diameter inp / 2 * (diameter inp / 2)) by nra.
      nra. }
  split; [exact P|].
  intros r Hr. destruct (calculate_inr inp r Hr) as (_ & b & _ & ->).
  now rewrite (proj2 (analyse_layout inp b)).
Qed.

Lemma polar_moment_positive_witness :
  layoutPrecondition (sampleInputs rectangular 1 2 8 20 5 10 50 10 10)
  /\ 0 < snd (calculateBoltLayout
               (sampleInputs rectangular 1 2 8 20 5 10 50 10 10)).
Proof.
  assert (H : layoutPrecondition
                (sampleInputs rectangular 1 2 8 20 5 10 50 10 10)).
  { cbv [layoutPrecondition sampleInputs arrangement rowSpacing colSpacing
           numRows numCols]. repeat split; (lra || (simpl; lia)). }
  split; [exact H|].
  exact (proj1 (polar_moment_positive _ H)).
Defined.

End PolarMoment.

(** ** The two copies of the force distribution *)

Section TwoCopies.

Import App Spec.

Lemma combine_map {A B C : Type} (f : A -> B) (g : A -> C) (l : list A) :
  combine (map f l) (map g l) = map (fun a => (f a, g a)) l.
Proof.
  induction l as [|a l IH]; simpl; [reflexivity|]. now rewrite IH.
Qed.

Variable inp : Inputs.

Lemma fold_ibpCell (cells : list (nat * nat)) (s : R) :
  fold_left
    (fun acc rc => BoltPattern.ibpCell (BoltPattern.propsOf inp)
                     (fst rc) (snd rc) acc) cells s
  = s + sumR (map (fun rc => sq (gridPos inp (fst rc) (snd rc))) cells).
Proof.
  revert s; induction cells as [|[r c] cells IH]; intros s; simpl; [lra|].
  rewrite IH. unfold BoltPattern.ibpCell, BoltPattern.centerX,
    BoltPattern.centerY, sq, gridPos, startX, startY. simpl. lra.
Qed.

(** C10. For the same inputs, the shear and the tension that
    [calculateBoltForces] of the pattern component attaches to each bolt are
    those the calculation of [App] computes, bolt for bolt in enumeration
    order. *)
Theorem pattern_forces_agree :
  map (fun b => (BoltPattern.shear b, BoltPattern.tension b))
    (BoltPattern.calculateBoltForces (BoltPattern.propsOf inp))
  = combine (boltShears inp) (boltTensions inp).
Proof.
  unfold BoltPattern.calculateBoltForces, boltShears, boltTensions.
  change (BoltPattern.arrangement (BoltPattern.propsOf inp))
    with (arrangement inp).
  destruct (arrangement inp) eqn:Ha.
  - rewrite layout_rectangular by exact Ha.
    cbv zeta. unfold for_range.
    change (BoltPattern.numRows (BoltPattern.propsOf inp)) with (numRows inp).
    change (BoltPattern.numCols (BoltPattern.propsOf inp)) with (numCols inp).
    rewrite (nested_loops (BoltPattern.ibpCell (BoltPattern.propsOf inp))).
    rewrite fold_ibpCell, Rplus_0_l.
    fold (gridCells (numRows inp) (numCols inp)).
    replace (map (fun rc => sq (gridPos inp (fst rc) (snd rc)))
               (gridCells (numRows inp) (numCols inp)))
      with (map sq (gridPositions inp))
      by (unfold gridPositions; now rewrite map_map).
    set (ibp := sumR (map sq (gridPositions inp))).
    rewrite (nested_loops
               (BoltPattern.forceCell (BoltPattern.propsOf inp) ibp)).
    fold (gridCells (numRows inp) (numCols inp)).
    unfold BoltPattern.forceCell. cbv zeta.
    rewrite for_range_push. simpl app.
    rewrite combine_map. unfold gridPositions. rewrite !map_map.
    apply map_ext. intros [row col].
    unfold totalShear, verticalShear, horizontalShear, totalAxial,
      pureAxialForce, majorAxisForce, minorAxisForce, ym, xm, totalBolts,
      BoltPattern.totalBolts, BoltPattern.centerX, BoltPattern.centerY,
      gridPos, startX, startY.
    simpl. rewrite Ha. f_equal.
    + f_equal. f_equal. unfold Rdiv. ring.
    + unfold Rdiv. ring.
  - rewrite layout_circular by exact Ha.
    cbv zeta. unfold for_range.
    assert (Hn : BoltPattern.totalBolts (BoltPattern.propsOf inp)
                 = numBolts inp)
      by (unfold BoltPattern.totalBolts; simpl; now rewrite Ha).
    rewrite Hn.
    unfold BoltPattern.forceOnCircle. cbv zeta.
    rewrite for_range_push. simpl app.
    rewrite combine_map. unfold circlePositions. rewrite !map_map.
    apply map_ext. intros i.
    unfold totalShear, verticalShear, horizontalShear, totalAxial,
      pureAxialForce, majorAxisForce, minorAxisForce, ym, xm, totalBolts,
      circlePos, angleIncrement, radius.
    simpl. rewrite Ha, Hn.
    rewrite (Rmult_assoc (INR (numBolts inp)) (diameter inp / 2)
               (diameter inp / 2)).
    f_equal. f_equal. f_equal. unfold Rdiv. ring.
Qed.

End TwoCopies.

(** ** The listing functions of the capacity table *)

Section Listings.

Import BoltData.

Lemma setFrom_fold_in (xs acc : list string) (s : string) :
  In s (fold_left
          (fun acc s => if existsb (String.eqb s) acc then acc else acc ++ [s])
          xs acc)
  <-> In s acc \/ In s xs.
Proof.
  revert acc; induction xs as [|a xs IH]; intros acc; simpl.
  - tauto.
  - rewrite IH. destruct (existsb (String.eqb a) acc) eqn:E.
    + apply existsb_exists in E. destruct E as (a' & Ha' & Heq).
      apply String.eqb_eq in Heq. subst a'.
      split; [tauto|]. intros [H|[<-|H]]; auto.
    + rewrite in_app_iff. simpl. tauto.
Qed.

Lemma setFrom_fold_NoDup (xs acc : list string) :
  NoDup acc ->
  NoDup (fold_left
           (fun acc s => if existsb (String.eqb s) acc then acc else acc ++ [s])
           xs acc).
Proof.
  revert acc; induction xs as [|a xs IH]; intros acc Hnd; simpl; [exact Hnd|].
  apply IH. destruct (existsb (String.eqb a) acc) eqn:E; [exact Hnd|].
  apply NoDup_app; [exact Hnd | repeat constructor; intros [] |].
  intros s Hs [->|[]].
  assert (existsb (String.eqb s) acc = true); [|congruence].
  apply existsb_exists. exists s. split; [exact Hs | apply String.eqb_refl].
Qed.

Lemma getBoltSizes_in (g s : string) :
  In s (getBoltSizes g)
  <-> exists b, In b boltData /\ grade b = g /\ size b = s.
Proof.
  unfold getBoltSizes. rewrite in_map_iff. split.
  - intros (b & Hs & Hb). apply filter_In in Hb. destruct Hb as [Hin Hg].
    apply String.eqb_eq in Hg. exists b.
    split; [exact Hin|]. split; [exact Hg | exact Hs].
  - intros (b & Hin & Hg & Hs). exists b. split; [exact Hs|].
    apply filter_In. split; [exact Hin | now apply String.eqb_eq].
Qed.

Lemma getBoltGrades_in (g : string) :
  In g getBoltGrades <-> exists b, In b boltData /\ grade b = g.
Proof.
  unfold getBoltGrades, setFrom. rewrite setFrom_fold_in, in_map_iff.
  split.
  - intros [H|(b & Hg & Hin)]; [destruct H|].
    exists b. split; [exact Hin | exact Hg].
  - intros (b & Hin & Hg). right. exists b. split; [exact Hg | exact Hin].
Qed.

Lemma lookup_defined_iff (g s : string) :
  (exists b, getBoltProperties g s = Some b)
  <-> exists b, In b boltData /\ grade b = g /\ size b = s.
Proof.
  split.
  - intros (b & Hb). exists b. now apply getBoltProperties_some.
  - intros (b & Hin & Hg & Hs).
    destruct (getBoltProperties g s) as [b'|] eqn:E; [now exists b'|].
    exfalso. apply (proj1 (getBoltProperties_none g s) E b Hin).
    split; [exact Hg | exact Hs].
Qed.

Lemma getBoltSizes_nonempty (g : string) :
  In g getBoltGrades -> getBoltSizes g <> [].
Proof.
  intros Hg E.
  destruct (proj1 (getBoltGrades_in g) Hg) as (b & Hin & Hb).
  assert (H : In (size b) (getBoltSizes g)).
  { apply (proj2 (getBoltSizes_in g (size b))). exists b.
    split; [exact Hin|]. split; [exact Hb | reflexivity]. }
  rewrite E in H. exact H.
Qed.

(** X1. The sizes listed for a grade are exactly the sizes for which the
    lookup with that grade finds a record. *)
Theorem listed_sizes_are_the_known_pairs (g s : string) :
  In s (getBoltSizes g) <-> exists b, getBoltProperties g s = Some b.
Proof.
  exact (iff_trans (getBoltSizes_in g s) (iff_sym (lookup_defined_iff g s))).
Qed.

Lemma listed_sizes_are_the_known_pairs_witness :
  (exists b, getBoltProperties "Grade 8.8" "M24" = Some b)
  /\ In "M24"%string (getBoltSizes "Grade 8.8").
Proof.
  assert (H : exists b, getBoltProperties "Grade 8.8" "M24" = Some b)
    by (eexists; reflexivity).
  split; [exact H|].
  exact (proj2 (listed_sizes_are_the_known_pairs "Grade 8.8" "M24") H).
Defined.

(** X2. The list of grades has no repetition, and it holds exactly the
    grades that occur in the catalog. *)
Theorem grades_distinct_and_complete :
  NoDup getBoltGrades
  /\ forall g, In g getBoltGrades <-> exists b, In b boltData /\ grade b = g.
Proof.
  split; [|exact getBoltGrades_in].
  unfold getBoltGrades, setFrom. apply setFrom_fold_NoDup. constructor.
Qed.

Lemma grades_distinct_and_complete_witness :
  In "Grade 10.9"%string getBoltGrades
  /\ exists b, In b boltData /\ grade b = "Grade 10.9"%string.
Proof.
  assert (H : In "Grade 10.9"%string getBoltGrades)
    by (vm_compute; right; right; left; reflexivity).
  split; [exact H|].
  exact (proj1 (proj2 grades_distinct_and_complete "Grade 10.9"%string) H).
Defined.

(** X3. A grade has no size listed exactly when it is not one of the listed
    grades: every listed grade offers at least one size, an unknown grade
    gives the empty list. *)
Theorem sizes_empty_iff_unknown_grade (g : string) :
  getBoltSizes g = [] <-> ~ In g getBoltGrades.
Proof.
  split.
  - intros E Hg. exact (getBoltSizes_nonempty g Hg E).
  - intros H. destruct (getBoltSizes g) as [|s l] eqn:E; [reflexivity|].
    exfalso. apply H.
    assert (Hs : In s (getBoltSizes g)) by (rewrite E; now left).
    destruct (proj1 (getBoltSizes_in g s) Hs) as (b & Hin & Hg & _).
    apply (proj2 (getBoltGrades_in g)). exists b.
    split; [exact Hin | exact Hg].
Qed.

Lemma sizes_empty_iff_unknown_grade_witness :
  ~ In "Grade 5.6"%string getBoltGrades
  /\ getBoltSizes "Grade 5.6" = [].
Proof.
  assert (H : ~ In "Grade 5.6"%string getBoltGrades)
    by (vm_compute; intros [E|[E|[E|[]]]]; discriminate E).
  split; [exact H|].
  exact (proj2 (sizes_empty_iff_unknown_grade "Grade 5.6") H).
Defined.

End Listings.

(** ** The effect that follows the grade *)

Section GradeEffect.

Import BoltData App Spec.

Local Opaque boltData.

Lemma includes_iff (s : string) (l : list string) :
  existsb (String.eqb s) l = true <-> In s l.
Proof.
  rewrite existsb_exists. split.
  - intros (s' & Hin & Heq). apply String.eqb_eq in Heq. now subst.
  - intros H. exists s. split; [exact H | apply String.eqb_refl].
Qed.

Lemma gradeEffect_some (inp inp' : Inputs) :
  snd (gradeEffect inp) = Some inp' ->
  boltGrade inp' = boltGrade inp
  /\ In (boltSize inp') (getBoltSizes (boltGrade inp))
  /\ totalBolts inp' = totalBolts inp.
Proof.
  unfold gradeEffect. cbn [snd].
  destruct (existsb (String.eqb (boltSize inp)) (getBoltSizes (boltGrade inp)))
    eqn:E; cbn [negb].
  - intros H. injection H as <-. apply includes_iff in E.
    split; [reflexivity|]. split; [exact E | reflexivity].
  - destruct (getBoltSizes (boltGrade inp)) as [|s l]; cbn [nth_error];
      [discriminate|].
    intros H. injection H as <-.
    split; [reflexivity|]. split; [now left | reflexivity].
Qed.

(** X4. When the grade of the inputs is one of the listed grades, the effect
    leaves inputs whose size is among the available sizes of that grade, so
    the lookup of the pair succeeds and the calculation cannot fail for an
    unknown grade and size; the grade and the bolt count are not touched. *)
Theorem grade_effect_selects_known_size (inp : Inputs) :
  In (boltGrade inp) getBoltGrades ->
  exists inp',
    snd (gradeEffect inp) = Some inp'
    /\ boltGrade inp' = boltGrade inp
    /\ totalBolts inp' = totalBolts inp
    /\ In (boltSize inp') (fst (gradeEffect inp))
    /\ (exists b, getBoltProperties (boltGrade inp') (boltSize inp') = Some b)
    /\ calculate inp' <> inl UnknownBoltSpec.
Proof.
  intros Hg.
  pose proof (getBoltSizes_nonempty _ Hg) as Hne.
  assert (Hsome : exists inp', snd (gradeEffect inp) = Some inp').
  { unfold gradeEffect. cbn [snd].
    destruct (existsb (String.eqb (boltSize inp))
                (getBoltSizes (boltGrade inp))); cbn [negb].
    - exists inp. reflexivity.
    - destruct (getBoltSizes (boltGrade inp)) as [|s0 l0];
        [contradiction|].
      exists (setBoltSize inp s0). reflexivity. }
  destruct Hsome as (inp' & H). exists inp'.
  destruct (gradeEffect_some inp inp' H) as (G & S & N).
  assert (L : exists b,
             getBoltProperties (boltGrade inp') (boltSize inp') = Some b).
  { rewrite G. apply (proj2 (lookup_defined_iff _ _)).
    exact (proj1 (getBoltSizes_in _ _) S). }
  repeat (split; [assumption|]).
  destruct L as (b & Hb). unfold calculate. rewrite Hb.
  destruct (totalBolts inp' <? 2)%nat; discriminate.
Qed.

(** X5. The effect is stable: run again on the inputs it leaves, it lists
    the same sizes and changes nothing. *)
Theorem grade_effect_idempotent (inp inp' : Inputs) :
  snd (gradeEffect inp) = Some inp' ->
  gradeEffect inp' = (fst (gradeEffect inp), Some inp').
Proof.
  intros H. destruct (gradeEffect_some inp inp' H) as (G & S & _).
  unfold gradeEffect. cbn [fst]. rewrite G.
  rewrite (proj2 (includes_iff _ _) S). reflexivity.
Qed.

Local Transparent boltData.

Lemma grade_effect_selects_known_size_witness :
  In (boltGrade (unknownSizeInputs 4 4)) getBoltGrades
  /\ exists inp',
       snd (gradeEffect (unknownSizeInputs 4 4)) = Some inp'
       /\ boltSize inp' = "M12"%string
       /\ calculate inp' <> inl UnknownBoltSpec.
Proof.
  assert (H : In (boltGrade (unknownSizeInputs 4 4)) getBoltGrades)
    by (vm_compute; right; left; reflexivity).
  split; [exact H|].
  destruct (grade_effect_selects_known_size _ H)
    as (inp' & E & _ & _ & _ & _ & C).
  exists inp'. split; [exact E|]. split; [|exact C].
  assert (E' : snd (gradeEffect (unknownSizeInputs 4 4))
               = Some (setBoltSize (unknownSizeInputs 4 4) "M12"))
    by reflexivity.
  rewrite E' in E. injection E as <-. reflexivity.
Defined.

Lemma grade_effect_idempotent_witness :
  snd (gradeEffect (unknownSizeInputs 4 4))
  = Some (setBoltSize (unknownSizeInputs 4 4) "M12")
  /\ gradeEffect (setBoltSize (unknownSizeInputs 4 4) "M12")
     = (fst (gradeEffect (unknownSizeInputs 4 4)),
        Some (setBoltSize (unknownSizeInputs 4 4) "M12")).
Proof.
  assert (H : snd (gradeEffect (unknownSizeInputs 4 4))
              = Some (setBoltSize (unknownSizeInputs 4 4) "M12"))
    by reflexivity.
  split; [exact H|].
  exact (grade_effect_idempotent _ _ H).
Defined.

End GradeEffect.

(** ** What a successful evaluation reports *)

Section Reported.

Import BoltData App Spec.

Lemma catalog_positive (b : BoltProperties) :
  In b boltData -> 0 < phiVf b /\ 0 < phiNtf b /\ 0 < BoltData.tensileArea b.
Proof.
  intros H. unfold boltData in H. simpl in H.
  repeat (destruct H as [<-|H]; [simpl; repeat split; lra|]). contradiction.
Qed.

Lemma analyse_fields (inp : Inputs) (b : BoltProperties) :
  maxShear (analyse inp b) = phiVf b
  /\ maxTension (analyse inp b) = phiNtf b
  /\ tensileArea (analyse inp b) = BoltData.tensileArea b
  /\ combinedRatio (analyse inp b)
     = (shearForce (analyse inp b) / phiVf b) ^ 2
       + (axialForce (analyse inp b) / phiNtf b) ^ 2
  /\ shearStress (analyse inp b)
     = shearForce (analyse inp b) * 1000 / BoltData.tensileArea b
  /\ tensileStress (analyse inp b)
     = axialForce (analyse inp b) * 1000 / BoltData.tensileArea b.
Proof.
  unfold analyse. destruct (calculateBoltLayout inp) as [positions i].
  destruct (fold_left _ positions (0, 0)) as [ms mt].
  repeat split; reflexivity.
Qed.

Lemma analyse_nonneg (inp : Inputs) (b : BoltProperties) :
  0 <= shearForce (analyse inp b) /\ 0 <= axialForce (analyse inp b).
Proof.
  destruct (analyse_maxima inp b) as [-> ->].
  split; apply fold_Rmax_ge_init.
Qed.

(** What success means, gathered: two bolts at least, a record of the
    catalog, and the record of [analyse]. *)
Lemma calculate_success (inp : Inputs) (r : Results) :
  calculate inp = inr r ->
  exists b, In b boltData /\ r = analyse inp b
            /\ getBoltProperties (boltGrade inp) (boltSize inp) = Some b
            /\ (2 <= totalBolts inp)%nat.
Proof.
  intros H. destruct (calculate_inr inp r H) as (Hn & b & Hb & Hr).
  exists b. destruct (getBoltProperties_some _ _ _ Hb) as (Hin & _).
  split; [exact Hin|]. split; [exact Hr|]. split; [exact Hb | exact Hn].
Qed.

(** X6. Under the preconditions of the layout, every figure a successful
    evaluation reports has the sign it should: the forces, the combined ratio
    and the stresses are not negative, the two capacities and the tensile
    area are positive. *)
Theorem reported_figures_signs (inp : Inputs) (r : Results) :
  layoutPrecondition inp ->
  calculate inp = inr r ->
  0 <= shearForce r /\ 0 <= axialForce r /\ 0 <= combinedRatio r
  /\ 0 <= shearStress r /\ 0 <= tensileStress r
  /\ 0 < maxShear r /\ 0 < maxTension r /\ 0 < tensileArea r.
Proof.
  intros _ H. destruct (calculate_success inp r H) as (b & Hin & -> & _ & _).
  destruct (catalog_positive b Hin) as (Hv & Ht & Ha).
  destruct (analyse_nonneg inp b) as (Hs & Hx).
  destruct (analyse_fields inp b) as (-> & -> & -> & -> & -> & ->).
  split; [exact Hs|]. split; [exact Hx|].
  split; [pose proof (pow2_ge_0 (shearForce (analyse inp b) / phiVf b));
          pose proof (pow2_ge_0 (axialForce (analyse inp b) / phiNtf b)); lra|].
  split; [apply Rmult_le_pos; [nra | left; now apply Rinv_0_lt_compat]|].
  split; [apply Rmult_le_pos; [nra | left; now apply Rinv_0_lt_compat]|].
  auto.
Qed.

Lemma reported_figures_signs_witness :
  layoutPrecondition defaultInputs
  /\ calculate defaultInputs
     = inr (analyse defaultInputs
              (mkBolt "Grade 8.8" "M24" 145.1 234.1 352.5 830))
  /\ 0 <= combinedRatio
            (analyse defaultInputs
               (mkBolt "Grade 8.8" "M24" 145.1 234.1 352.5 830)).
Proof.
  assert (P : layoutPrecondition defaultInputs).
  { cbv [layoutPrecondition defaultInputs sampleInputs arrangement rowSpacing
           colSpacing numRows numCols]. repeat split; (lra || (simpl; lia)). }
  assert (E : calculate defaultInputs
              = inr (analyse defaultInputs
                       (mkBolt "Grade 8.8" "M24" 145.1 234.1 352.5 830)))
    by reflexivity.
  split; [exact P|]. split; [exact E|].
  exact (proj1 (proj2 (proj2 (reported_figures_signs _ _ P E)))).
Defined.

Lemma square_le_1 (u v : R) : u ^ 2 + v ^ 2 <= 1 -> u <= 1 /\ v <= 1.
Proof.
  intros H. split.
  - destruct (Rle_dec u 1) as [|Hu]; [assumption|]. exfalso.
    pose proof (pow2_ge_0 v). nra.
  - destruct (Rle_dec v 1) as [|Hv]; [assumption|]. exfalso.
    pose proof (pow2_ge_0 u). nra.
Qed.

(** X7. After a successful evaluation, when the combined ratio is shown in
    green (which is when the design is said to be acceptable) the shear
    utilisation and the tension utilisation are shown in green too. *)
Theorem combined_green_implies_both_green (inp : Inputs) (r : Results) :
  calculate inp = inr r ->
  getUtilisationColor (combinedRatio r) = text_green_600 ->
  designAcceptable r = true
  /\ getUtilisationColor (shearForce r / maxShear r) = text_green_600
  /\ getUtilisationColor (axialForce r / maxTension r) = text_green_600.
Proof.
  intros H. destruct (calculate_success inp r H) as (b & _ & -> & _ & _).
  destruct (analyse_fields inp b) as (Hv & Ht & _ & Hc & _).
  unfold getUtilisationColor, designAcceptable. rewrite Hv, Ht, Hc.
  replace 1.0 with 1 by lra.
  destruct (Rle_dec (_ + _) 1) as [Hle|]; [intros _ | discriminate].
  destruct (square_le_1 _ _ Hle) as [Hs Hx].
  split; [reflexivity|].
  split; destruct (Rle_dec _ 1); (reflexivity || contradiction).
Qed.

(** X8. The layout has as many positions as the arrangement has bolts, rows
    times columns or the number of bolts on the circle; the positions a
    successful evaluation reports are those, two at least. *)
Theorem layout_bolt_count (inp : Inputs) :
  List.length (fst (calculateBoltLayout inp))
  = match arrangement inp with
    | rectangular => (numRows inp * numCols inp)%nat
    | circular => numBolts inp
    end
  /\ forall r, calculate inp = inr r ->
       boltPositions r = fst (calculateBoltLayout inp)
       /\ (2 <= List.length (boltPositions r))%nat.
Proof.
  split; [apply layout_length|].
  intros r H. destruct (calculate_success inp r H) as (b & _ & -> & _ & Hn).
  rewrite (proj1 (analyse_layout inp b)). split; [reflexivity|].
  now rewrite layout_length.
Qed.

End Reported.

(** ** Saved calculations *)

Section SavedCalculations.

Import BoltData App Spec.

(** X9. Under the preconditions of the layout, saving after a successful
    evaluation appends one entry and keeps the earlier ones; in the new
    entry the combined ratio is the sum of the
    squares of the two utilisations, which are not negative, and the grade
    and size are a pair of the catalog. *)
Theorem saved_entry_consistent (inp : Inputs) (r : Results) (today : string)
    (history : list Saved.BoltCalculation) :
  layoutPrecondition inp ->
  calculate inp = inr r ->
  exists c,
    Saved.saveCalculation inp r today history = history ++ [c]
    /\ Saved.combinedRatio c
       = Saved.shearUtilisation c ^ 2 + Saved.tensionUtilisation c ^ 2
    /\ 0 <= Saved.shearUtilisation c /\ 0 <= Saved.tensionUtilisation c
    /\ Saved.timestamp c = today
    /\ exists b, getBoltProperties (Saved.boltGrade c) (Saved.boltSize c)
                 = Some b.
Proof.
  intros _ H. destruct (calculate_success inp r H) as (b & Hin & -> & Hb & _).
  destruct (catalog_positive b Hin) as (Hv & Ht & _).
  destruct (analyse_nonneg inp b) as (Hs & Hx).
  destruct (analyse_fields inp b) as (Ev & Et & _ & Ec & _).
  eexists. split; [reflexivity|]. cbn.
  rewrite Ev, Et, Ec.
  split; [reflexivity|].
  split; [apply Rmult_le_pos; [exact Hs | left; now apply Rinv_0_lt_compat]|].
  split; [apply Rmult_le_pos; [exact Hx | left; now apply Rinv_0_lt_compat]|].
  split; [reflexivity|]. exists b. exact Hb.
Qed.

End SavedCalculations.

(** ** Section properties and equilibrium of the bolt forces *)

Section Equilibrium.

Import BoltData App Spec.

Lemma circlePos_sq (inp : Inputs) (i : nat) :
  sq (circlePos inp i) = radius inp * radius inp.
Proof.
  unfold sq, circlePos. simpl.
  pose proof (sin2_cos2 (INR i * angleIncrement inp)) as H.
  unfold Rsqr in H. nra.
Qed.

Lemma layout_ibp_sum (inp : Inputs) :
  snd (calculateBoltLayout inp)
  = sumR (map sq (fst (calculateBoltLayout inp))).
Proof.
  destruct (arrangement inp) eqn:Ha.
  - rewrite layout_rectangular by exact Ha. reflexivity.
  - rewrite layout_circular by exact Ha. simpl.
    unfold circlePositions. rewrite map_map.
    rewrite (map_ext (fun i => sq (circlePos inp i))
               (fun _ => radius inp * radius inp) (circlePos_sq inp)).
    rewrite sumR_const, length_seq. reflexivity.
Qed.

(** X10. For both arrangements the polar moment the layout returns is the
    sum, over the positions it returns, of the squared distances to the
    origin: the closed form of the circular branch agrees with the sum the
    rectangular branch accumulates. *)
Theorem polar_moment_is_sum_of_squares (inp : Inputs) :
  snd (calculateBoltLayout inp)
  = sumR (map sq (fst (calculateBoltLayout inp))).
Proof. exact (layout_ibp_sum inp). Qed.

(** The preconditions of the layout give those of the centroid lemmas and a
    bolt count that is not zero. *)
Lemma precondition_count (inp : Inputs) :
  layoutPrecondition inp -> (2 <= totalBolts inp)%nat.
Proof.
  unfold layoutPrecondition, totalBolts.
  destruct (arrangement inp); intros H; apply H.
Qed.

Lemma layout_sums_zero (inp : Inputs) :
  layoutPrecondition inp ->
  sumR (map x (fst (calculateBoltLayout inp))) = 0
  /\ sumR (map y (fst (calculateBoltLayout inp))) = 0.
Proof.
  unfold layoutPrecondition. destruct (arrangement inp) eqn:Ha; intros H.
  - rewrite layout_rectangular by exact Ha. simpl.
    split; [apply sumR_grid_x | apply sumR_grid_y].
  - rewrite layout_circular by exact Ha. simpl. destruct H as [_ Hn].
    split; [now apply sumR_circle_x | now apply sumR_circle_y].
Qed.

Lemma sumR_linear (a b c : R) (l : list BoltPosition) :
  sumR (map (fun p => a + b * y p + c * x p) l)
  = INR (List.length l) * a + b * sumR (map y l) + c * sumR (map x l).
Proof.
  induction l as [|p l IH]; [simpl; lra|].
  cbn [map sumR fold_right List.length].
  fold (sumR (map (fun p => a + b * y p + c * x p) l)).
  fold (sumR (map y l)). fold (sumR (map x l)).
  rewrite IH, S_INR. lra.
Qed.

Lemma precondition_INR (inp : Inputs) :
  layoutPrecondition inp -> 2 <= INR (totalBolts inp).
Proof. intros H. apply INR_ge_2. now apply precondition_count. Qed.

Lemma boltTensions_sum (inp : Inputs) :
  layoutPrecondition inp ->
  sumR (boltTensions inp) = pryingAllowance inp * nt inp.
Proof.
  intros H. pose proof (precondition_INR inp H) as Hn.
  destruct (layout_sums_zero inp H) as [Hx Hy].
  pose proof (layout_length inp) as Hl.
  unfold boltTensions.
  destruct (calculateBoltLayout inp) as [positions i]. simpl in Hx, Hy, Hl.
  rewrite (map_ext (totalAxial inp (INR (totalBolts inp)))
             (fun p =>
                pryingAllowance inp * (nt inp * 1000 / INR (totalBolts inp))
                / 1000
                + (pryingAllowance inp * (mb inp * 1e6)
                   / (2 * ym inp * ym inp) / 1000) * y p
                + (pryingAllowance inp * (mm inp * 1e6)
                   / (2 * xm inp * xm inp) / 1000) * x p)).
  - rewrite sumR_linear, Hx, Hy, Hl, !Rmult_0_r, !Rplus_0_r. field. lra.
  - intros p. unfold totalAxial, pureAxialForce, majorAxisForce,
      minorAxisForce, Rdiv. ring.
Qed.

(** X12. Force equilibrium of the tensions: under the preconditions of the
    layout the bolt tensions add up to [alpha * Nt], whatever the two bending
    moments are. *)
Theorem tensions_sum_to_axial_force (inp : Inputs) :
  layoutPrecondition inp ->
  sumR (boltTensions inp) = pryingAllowance inp * nt inp.
Proof. exact (boltTensions_sum inp). Qed.

Lemma tensions_sum_to_axial_force_witness :
  layoutPrecondition defaultInputs
  /\ sumR (boltTensions defaultInputs) = 1.1 * 10.
Proof.
  assert (H : layoutPrecondition defaultInputs).
  { cbv [layoutPrecondition defaultInputs sampleInputs arrangement rowSpacing
           colSpacing numRows numCols]. repeat split; (lra || (simpl; lia)). }
  split; [exact H|].
  exact (tensions_sum_to_axial_force defaultInputs H).
Defined.

Lemma sumR_le_bound (l : list R) (m : R) :
  (forall v, In v l -> v <= m) -> sumR l <= INR (List.length l) * m.
Proof.
  induction l as [|a l IH]; intros H; [simpl; lra|].
  cbn [sumR fold_right List.length]. fold (sumR l). rewrite S_INR.
  assert (a <= m) by (apply H; now left).
  assert (sumR l <= INR (List.length l) * m)
    by (apply IH; intros v Hv; apply H; now right).
  lra.
Qed.

(** X13. The reported maximum tension is never below the mean bolt tension
    [alpha * Nt / n]: bending can raise the governing tension, not lower
    it. *)
Theorem max_tension_at_least_mean (inp : Inputs) (r : Results) :
  layoutPrecondition inp ->
  calculate inp = inr r ->
  pryingAllowance inp * nt inp / INR (totalBolts inp) <= axialForce r.
Proof.
  intros H Hc. pose proof (precondition_INR inp H) as Hn.
  destruct (calculate_inr inp r Hc) as (_ & b & _ & ->).
  rewrite (proj2 (analyse_maxima inp b)).
  pose proof (sumR_le_bound (boltTensions inp)
                (fold_left Rmax (boltTensions inp) 0)
                (fun v Hv => fold_Rmax_ge_in _ 0 v Hv)) as Hs.
  rewrite (boltTensions_sum inp H), boltTensions_length in Hs.
  apply Rmult_le_reg_l with (INR (totalBolts inp)); [lra|].
  replace (INR (totalBolts inp)
           * (pryingAllowance inp * nt inp / INR (totalBolts inp)))
    with (pryingAllowance inp * nt inp) by (field; lra).
  exact Hs.
Qed.

Lemma max_tension_at_least_mean_witness :
  layoutPrecondition defaultInputs
  /\ calculate defaultInputs
     = inr (analyse defaultInputs
              (mkBolt "Grade 8.8" "M24" 145.1 234.1 352.5 830))
  /\ 1.1 * 10 / INR 16
     <= axialForce (analyse defaultInputs
                      (mkBolt "Grade 8.8" "M24" 145.1 234.1 352.5 830)).
Proof.
  assert (H : layoutPrecondition defaultInputs).
  { cbv [layoutPrecondition defaultInputs sampleInputs arrangement rowSpacing
           colSpacing numRows numCols]. repeat split; (lra || (simpl; lia)). }
  assert (E : calculate defaultInputs
              = inr (analyse defaultInputs
                       (mkBolt "Grade 8.8" "M24" 145.1 234.1 352.5 830)))
    by reflexivity.
  split; [exact H|]. split; [exact E|].
  exact (max_tension_at_least_mean defaultInputs _ H E).
Defined.

Lemma layout_ibp_pos (inp : Inputs) :
  layoutPrecondition inp -> 0 < snd (calculateBoltLayout inp).
Proof.
  unfold layoutPrecondition. destruct (arrangement inp) eqn:Ha; intros H.
  - destruct H as (Hrs & Hcs & Hn).
    rewrite layout_rectangular by exact Ha. simpl.
    apply Rlt_le_trans with (sq (gridPos inp 0 0));
      [now apply first_cell_off_centre|].
    apply sumR_ge_in.
    + intros u Hu. apply in_map_iff in Hu. destruct Hu as (p & <- & _).
      apply sq_nonneg.
    + apply in_map. apply first_cell_in_grid; nia.
  - destruct H as (Hd & Hn).
    rewrite layout_circular by exact Ha. simpl. unfold radius.
    pose proof (INR_ge_2 _ Hn).
    assert (0 < diameter inp / 2 * (diameter inp / 2)) by nra.
    nra.
Qed.

Lemma sqrt_scaled (k s : R) : 0 <= s -> sqrt (k * k * s) = Rabs k * sqrt s.
Proof.
  intros Hs. rewrite sqrt_mult by (nra || exact Hs).
  f_equal. exact (sqrt_Rsqr_abs k).
Qed.

Lemma boltShears_no_torsion (inp : Inputs) :
  layoutPrecondition inp -> tb inp = 0 ->
  boltShears inp
  = repeat (sqrt (vx inp * vx inp + vy inp * vy inp) / INR (totalBolts inp))
      (totalBolts inp).
Proof.
  intros H Ht. pose proof (precondition_INR inp H) as Hn.
  rewrite <- (boltShears_length inp) at 2.
  apply all_equal_repeat. intros v Hv. unfold boltShears in Hv.
  destruct (calculateBoltLayout inp) as [positions i].
  apply in_map_iff in Hv. destruct Hv as (pos & <- & _).
  unfold totalShear, verticalShear, horizontalShear. rewrite Ht.
  replace ((- vy inp * 1000 / INR (totalBolts inp)
            + - 0 * 1e6 * x pos / i) ^ 2
           + (- vx inp * 1000 / INR (totalBolts inp)
              + - 0 * 1e6 * y pos / i) ^ 2)
    with ((1000 / INR (totalBolts inp)) * (1000 / INR (totalBolts inp))
          * (vx inp * vx inp + vy inp * vy inp))
    by (unfold Rdiv; ring).
  rewrite sqrt_scaled by nra.
  rewrite Rabs_right;
    [field; lra | apply Rle_ge; apply Rlt_le; apply Rdiv_lt_0_compat; lra].
Qed.

(** X14. Without torsion the shear is shared evenly: under the preconditions
    of the layout and with [Tb = 0] every bolt has the resultant shear
    [sqrt(Vx^2 + Vy^2) / n]. *)
Theorem uniform_direct_shear (inp : Inputs) :
  layoutPrecondition inp -> tb inp = 0 ->
  boltShears inp
  = repeat (sqrt (vx inp * vx inp + vy inp * vy inp) / INR (totalBolts inp))
      (totalBolts inp).
Proof. exact (boltShears_no_torsion inp). Qed.

Lemma uniform_direct_shear_witness :
  layoutPrecondition (sampleInputs rectangular 4 4 8 3 4 0 50 10 10)
  /\ boltShears (sampleInputs rectangular 4 4 8 3 4 0 50 10 10)
     = repeat (sqrt (3 * 3 + 4 * 4) / INR 16) 16.
Proof.
  assert (H : layoutPrecondition
                (sampleInputs rectangular 4 4 8 3 4 0 50 10 10)).
  { cbv [layoutPrecondition sampleInputs arrangement rowSpacing colSpacing
           numRows numCols]. repeat split; (lra || (simpl; lia)). }
  split; [exact H|].
  exact (uniform_direct_shear _ H eq_refl).
Defined.

(** X15. With torsion alone the shear of a bolt is proportional to its
    distance to the centroid: under the preconditions of the layout and with
    [Vx = Vy = 0] the bolt at [(x, y)] has the resultant shear
    [|Tb| * 1000 * sqrt(x^2 + y^2) / Ibp]. *)
Theorem torsion_shear_proportional_to_distance (inp : Inputs) :
  layoutPrecondition inp -> vx inp = 0 -> vy inp = 0 ->
  boltShears inp
  = map (fun pos =>
           Rabs (tb inp) * 1000 * sqrt (x pos * x pos + y pos * y pos)
           / snd (calculateBoltLayout inp))
      (fst (calculateBoltLayout inp)).
Proof.
  intros H Hx Hy. pose proof (layout_ibp_pos inp H) as Hi.
  unfold boltShears.
  destruct (calculateBoltLayout inp) as [positions i]. simpl in *.
  apply map_ext. intros pos.
  unfold totalShear, verticalShear, horizontalShear. rewrite Hx, Hy.
  replace ((- 0 * 1000 / INR (totalBolts inp)
            + - tb inp * 1e6 * x pos / i) ^ 2
           + (- 0 * 1000 / INR (totalBolts inp)
              + - tb inp * 1e6 * y pos / i) ^ 2)
    with ((tb inp * 1e6 / i) * (tb inp * 1e6 / i)
          * (x pos * x pos + y pos * y pos))
    by (unfold Rdiv; ring).
  rewrite sqrt_scaled by nra.
  assert (Hk : Rabs (tb inp * 1e6 / i) = Rabs (tb inp) * 1e6 / i).
  { unfold Rdiv. rewrite Rabs_mult, Rabs_mult.
    rewrite (Rabs_right 1e6) by lra.
    rewrite (Rabs_right (/ i))
      by (apply Rle_ge; apply Rlt_le; now apply Rinv_0_lt_compat).
    reflexivity. }
  rewrite Hk. field. lra.
Qed.

Lemma torsion_shear_proportional_to_distance_witness :
  layoutPrecondition (sampleInputs circular 4 4 8 0 0 10 50 10 10)
  /\ boltShears (sampleInputs circular 4 4 8 0 0 10 50 10 10)
     = map (fun pos =>
              Rabs 10 * 1000 * sqrt (x pos * x pos + y pos * y pos)
              / snd (calculateBoltLayout
                       (sampleInputs circular 4 4 8 0 0 10 50 10 10)))
         (fst (calculateBoltLayout
                 (sampleInputs circular 4 4 8 0 0 10 50 10 10))).
Proof.
  assert (H : layoutPrecondition
                (sampleInputs circular 4 4 8 0 0 10 50 10 10)).
  { cbv [layoutPrecondition sampleInputs arrangement diameter numBolts].
    split; [lra | lia]. }
  split; [exact H|].
  exact (torsion_shear_proportional_to_distance _ H eq_refl eq_refl).
Defined.

(** X16. Force equilibrium of the shear components: under the preconditions
    of the layout the horizontal components of all bolts add up to
    [-Vx * 1000] and the vertical ones to [-Vy * 1000], whatever the torsion
    is. *)
Theorem shear_components_sum_to_applied_shear (inp : Inputs) :
  layoutPrecondition inp ->
  sumR (map (horizontalShear inp (INR (totalBolts inp))
               (snd (calculateBoltLayout inp)))
          (fst (calculateBoltLayout inp)))
  = - vx inp * 1000
  /\ sumR (map (verticalShear inp (INR (totalBolts inp))
                  (snd (calculateBoltLayout inp)))
             (fst (calculateBoltLayout inp)))
     = - vy inp * 1000.
Proof.
  intros H. pose proof (precondition_INR inp H) as Hn.
  destruct (layout_sums_zero inp H) as [Hx Hy].
  pose proof (layout_length inp) as Hl.
  destruct (calculateBoltLayout inp) as [positions i]. simpl in *.
  split.
  - rewrite (map_ext (horizontalShear inp (INR (totalBolts inp)) i)
               (fun p => - vx inp * 1000 / INR (totalBolts inp)
                         + (- tb inp * 1e6 / i) * y p + 0 * x p))
      by (intros p; unfold horizontalShear, Rdiv; ring).
    rewrite sumR_linear, Hx, Hy, Hl, !Rmult_0_r, !Rplus_0_r. field. lra.
  - rewrite (map_ext (verticalShear inp (INR (totalBolts inp)) i)
               (fun p => - vy inp * 1000 / INR (totalBolts inp)
                         + 0 * y p + (- tb inp * 1e6 / i) * x p))
      by (intros p; unfold verticalShear, Rdiv; ring).
    rewrite sumR_linear, Hx, Hy, Hl, !Rmult_0_r, !Rplus_0_r. field. lra.
Qed.

Lemma shear_components_sum_to_applied_shear_witness :
  layoutPrecondition defaultInputs
  /\ sumR (map (horizontalShear defaultInputs (INR (totalBolts defaultInputs))
                  (snd (calculateBoltLayout defaultInputs)))
             (fst (calculateBoltLayout defaultInputs)))
     = - 20 * 1000.
Proof.
  assert (H : layoutPrecondition defaultInputs).
  { cbv [layoutPrecondition defaultInputs sampleInputs arrangement rowSpacing
           colSpacing numRows numCols]. repeat split; (lra || (simpl; lia)). }
  split; [exact H|].
  exact (proj1 (shear_components_sum_to_applied_shear defaultInputs H)).
Defined.

(** A pair of bolts without any load: nothing is demanded of them. *)
Lemma unloaded_pair_reports_zero :
  calculate (sampleInputs rectangular 1 2 8 0 0 0 0 0 0)
  = inr (analyse (sampleInputs rectangular 1 2 8 0 0 0 0 0 0)
           (mkBolt "Grade 8.8" "M24" 145.1 234.1 352.5 830))
  /\ combinedRatio (analyse (sampleInputs rectangular 1 2 8 0 0 0 0 0 0)
                      (mkBolt "Grade 8.8" "M24" 145.1 234.1 352.5 830)) = 0.
Proof.
  set (inp := sampleInputs rectangular 1 2 8 0 0 0 0 0 0).
  set (b := mkBolt "Grade 8.8" "M24" 145.1 234.1 352.5 830).
  split; [reflexivity|].
  assert (H : layoutPrecondition inp).
  { cbv [inp layoutPrecondition sampleInputs arrangement rowSpacing colSpacing
           numRows numCols]. repeat split; (lra || (simpl; lia)). }
  assert (S : shearForce (analyse inp b) = 0).
  { rewrite (proj1 (analyse_maxima inp b)).
    rewrite (boltShears_no_torsion inp H eq_refl).
    change (totalBolts inp) with 2%nat. simpl.
    replace (0 * 0 + 0 * 0) with 0 by lra. rewrite sqrt_0.
    replace (0 / (1 + 1)) with 0 by lra.
    repeat rewrite (Rmax_left 0 0) by lra. reflexivity. }
  assert (T : axialForce (analyse inp b) = 0).
  { rewrite (proj2 (analyse_maxima inp b)).
    rewrite boltTensions_axialOnly;
      [|vm_compute; lia | repeat split; reflexivity].
    change (totalBolts inp) with 2%nat. simpl.
    replace (1.1 * 0 / (1 + 1)) with 0 by lra.
    repeat rewrite (Rmax_left 0 0) by lra. reflexivity. }
  destruct (analyse_fields inp b) as (_ & _ & _ & -> & _).
  rewrite S, T. simpl. lra.
Qed.

Lemma combined_green_implies_both_green_witness :
  calculate (sampleInputs rectangular 1 2 8 0 0 0 0 0 0)
  = inr (analyse (sampleInputs rectangular 1 2 8 0 0 0 0 0 0)
           (mkBolt "Grade 8.8" "M24" 145.1 234.1 352.5 830))
  /\ getUtilisationColor
       (combinedRatio (analyse (sampleInputs rectangular 1 2 8 0 0 0 0 0 0)
                         (mkBolt "Grade 8.8" "M24" 145.1 234.1 352.5 830)))
     = text_green_600
  /\ designAcceptable (analyse (sampleInputs rectangular 1 2 8 0 0 0 0 0 0)
                         (mkBolt "Grade 8.8" "M24" 145.1 234.1 352.5 830))
     = true.
Proof.
  destruct unloaded_pair_reports_zero as [E Z].
  assert (G : getUtilisationColor
                (combinedRatio
                   (analyse (sampleInputs rectangular 1 2 8 0 0 0 0 0 0)
                      (mkBolt "Grade 8.8" "M24" 145.1 234.1 352.5 830)))
              = text_green_600).
  { rewrite Z. unfold getUtilisationColor.
    destruct (Rle_dec 0 1.0) as [|N]; [reflexivity | exfalso; apply N; lra]. }
  split; [exact E|]. split; [exact G|].
  exact (proj1 (combined_green_implies_both_green _ _ E G)).
Defined.

Lemma layout_bolt_count_witness :
  calculate defaultInputs
  = inr (analyse defaultInputs (mkBolt "Grade 8.8" "M24" 145.1 234.1 352.5 830))
  /\ (2 <= List.length
             (boltPositions
                (analyse defaultInputs
                   (mkBolt "Grade 8.8" "M24" 145.1 234.1 352.5 830))))%nat.
Proof.
  assert (E : calculate defaultInputs
              = inr (analyse defaultInputs
                       (mkBolt "Grade 8.8" "M24" 145.1 234.1 352.5 830)))
    by reflexivity.
  split; [exact E|].
  exact (proj2 (proj2 (layout_bolt_count defaultInputs) _ E)).
Defined.

Lemma saved_entry_consistent_witness :
  layoutPrecondition defaultInputs
  /\ calculate defaultInputs
     = inr (analyse defaultInputs
              (mkBolt "Grade 8.8" "M24" 145.1 234.1 352.5 830))
  /\ exists c,
       Saved.saveCalculation defaultInputs
         (analyse defaultInputs
            (mkBolt "Grade 8.8" "M24" 145.1 234.1 352.5 830))
         "02/11/2026" [] = [c]
       /\ Saved.combinedRatio c
          = Saved.shearUtilisation c ^ 2 + Saved.tensionUtilisation c ^ 2.
Proof.
  assert (P : layoutPrecondition defaultInputs).
  { cbv [layoutPrecondition defaultInputs sampleInputs arrangement rowSpacing
           colSpacing numRows numCols]. repeat split; (lra || (simpl; lia)). }
  assert (E : calculate defaultInputs
              = inr (analyse defaultInputs
                       (mkBolt "Grade 8.8" "M24" 145.1 234.1 352.5 830)))
    by reflexivity.
  split; [exact P|]. split; [exact E|].
  destruct (saved_entry_consistent defaultInputs _ "02/11/2026" [] P E)
    as (c & Hc & Hr & _).
  exists c. split; [exact Hc | exact Hr].
Defined.

End Equilibrium.

(** ** The table of the pattern component against the engine *)

Section PatternTable.

Import BoltData App Spec.

Variable inp : Inputs.

(** The array of [calculateBoltForces], position by position of the layout
    of [App]: the drawing coordinates are the centred ones shifted by the
    centre of the drawing, the forces are those of the loop of [App]. *)
Lemma calculateBoltForces_closed :
  BoltPattern.calculateBoltForces (BoltPattern.propsOf inp)
  = map (fun pos =>
           BoltPattern.mkForce
             (x pos + BoltPattern.tableCenterX (BoltPattern.propsOf inp))
             (y pos + BoltPattern.tableCenterY (BoltPattern.propsOf inp))
             (totalShear inp (INR (totalBolts inp))
                (snd (calculateBoltLayout inp)) pos)
             (totalAxial inp (INR (totalBolts inp)) pos))
      (fst (calculateBoltLayout inp)).
Proof.
  unfold BoltPattern.calculateBoltForces, BoltPattern.tableCenterX,
    BoltPattern.tableCenterY.
  change (BoltPattern.arrangement (BoltPattern.propsOf inp))
    with (arrangement inp).
  destruct (arrangement inp) eqn:Ha.
  - rewrite layout_rectangular by exact Ha.
    cbv zeta. unfold for_range.
    change (BoltPattern.numRows (BoltPattern.propsOf inp)) with (numRows inp).
    change (BoltPattern.numCols (BoltPattern.propsOf inp)) with (numCols inp).
    rewrite (nested_loops (BoltPattern.ibpCell (BoltPattern.propsOf inp))).
    rewrite fold_ibpCell, Rplus_0_l.
    fold (gridCells (numRows inp) (numCols inp)).
    replace (map (fun rc => sq (gridPos inp (fst rc) (snd rc)))
               (gridCells (numRows inp) (numCols inp)))
      with (map sq (gridPositions inp))
      by (unfold gridPositions; now rewrite map_map).
    cbn [fst snd].
    set (ibp := sumR (map sq (gridPositions inp))).
    rewrite (nested_loops
               (BoltPattern.forceCell (BoltPattern.propsOf inp) ibp)).
    fold (gridCells (numRows inp) (numCols inp)).
    unfold BoltPattern.forceCell. cbv zeta.
    rewrite for_range_push. simpl app.
    unfold gridPositions. rewrite map_map.
    apply map_ext. intros [row col].
    unfold totalShear, verticalShear, horizontalShear, totalAxial,
      pureAxialForce, majorAxisForce, minorAxisForce, ym, xm, totalBolts,
      BoltPattern.totalBolts, BoltPattern.centerX, BoltPattern.centerY,
      gridPos, startX, startY.
    simpl. rewrite Ha. f_equal.
    + unfold Rdiv. ring.
    + unfold Rdiv. ring.
    + f_equal. f_equal. unfold Rdiv. ring.
    + unfold Rdiv. ring.
  - rewrite layout_circular by exact Ha.
    cbv zeta. unfold for_range.
    assert (Hn : BoltPattern.totalBolts (BoltPattern.propsOf inp)
                 = numBolts inp)
      by (unfold BoltPattern.totalBolts; simpl; now rewrite Ha).
    rewrite Hn. cbn [fst snd].
    unfold BoltPattern.forceOnCircle. cbv zeta.
    rewrite for_range_push. simpl app.
    unfold circlePositions. rewrite map_map.
    apply map_ext. intros i.
    unfold totalShear, verticalShear, horizontalShear, totalAxial,
      pureAxialForce, majorAxisForce, minorAxisForce, ym, xm, totalBolts,
      circlePos, angleIncrement, radius.
    simpl. rewrite Ha, Hn.
    rewrite (Rmult_assoc (INR (numBolts inp)) (diameter inp / 2)
               (diameter inp / 2)).
    f_equal. f_equal. f_equal. unfold Rdiv. ring.
Qed.

Lemma pattern_shears :
  map BoltPattern.shear
    (BoltPattern.calculateBoltForces (BoltPattern.propsOf inp))
  = boltShears inp.
Proof.
  rewrite calculateBoltForces_closed, map_map. unfold boltShears.
  destruct (calculateBoltLayout inp) as [positions i]. reflexivity.
Qed.

Lemma pattern_tensions :
  map BoltPattern.tension
    (BoltPattern.calculateBoltForces (BoltPattern.propsOf inp))
  = boltTensions inp.
Proof.
  rewrite calculateBoltForces_closed, map_map. unfold boltTensions.
  destruct (calculateBoltLayout inp) as [positions i]. reflexivity.
Qed.

(** X17. For a rectangular arrangement, the coordinates the table of the
    pattern component shows for a bolt, relative to the centre of the
    drawing, are the coordinates of the same bolt in the layout of the
    engine, in the same order. *)
Theorem table_coordinates_are_layout_positions :
  arrangement inp = rectangular ->
  map (fun bolt =>
         (BoltPattern.relX (BoltPattern.propsOf inp) bolt,
          BoltPattern.relY (BoltPattern.propsOf inp) bolt))
    (BoltPattern.calculateBoltForces (BoltPattern.propsOf inp))
  = map (fun pos => (x pos, y pos)) (fst (calculateBoltLayout inp)).
Proof.
  intros _. rewrite calculateBoltForces_closed, map_map.
  apply map_ext. intros pos.
  unfold BoltPattern.relX, BoltPattern.relY. simpl. f_equal; ring.
Qed.

End PatternTable.

Lemma table_coordinates_are_layout_positions_witness :
  App.arrangement Spec.defaultInputs = App.rectangular
  /\ map (fun bolt =>
            (BoltPattern.relX (BoltPattern.propsOf Spec.defaultInputs) bolt,
             BoltPattern.relY (BoltPattern.propsOf Spec.defaultInputs) bolt))
       (BoltPattern.calculateBoltForces
          (BoltPattern.propsOf Spec.defaultInputs))
     = map (fun pos => (App.x pos, App.y pos))
         (fst (App.calculateBoltLayout Spec.defaultInputs)).
Proof.
  assert (A : App.arrangement Spec.defaultInputs = App.rectangular)
    by reflexivity.
  split; [exact A|].
  exact (table_coordinates_are_layout_positions Spec.defaultInputs A).
Defined.

(** ** The governing bolts of the pattern component *)

Section PatternMaxima.

Import BoltData App Spec.

Lemma mathMax_nonneg (l : list R) :
  l <> [] -> (forall v, In v l -> 0 <= v) ->
  BoltPattern.mathMax l = Some (fold_left Rmax l 0).
Proof.
  destruct l as [|v rest]; intros Hne Hpos; [contradiction|].
  simpl. rewrite (Rmax_right 0 v) by (apply Hpos; now left). reflexivity.
Qed.

Lemma map_Rabs_nonneg (l : list R) :
  (forall v, In v l -> 0 <= v) -> map Rabs l = l.
Proof.
  induction l as [|a l IH]; intros H; simpl; [reflexivity|].
  rewrite Rabs_right by (apply Rle_ge; apply H; now left).
  rewrite IH; [reflexivity|]. intros v Hv. apply H. now right.
Qed.

Lemma fold_Rmax_abs_le (l : list R) :
  fold_left Rmax l 0 <= fold_left Rmax (map Rabs l) 0.
Proof.
  destruct (fold_Rmax_cases l 0) as [E|Hin].
  - rewrite E. apply fold_Rmax_ge_init.
  - apply Rle_trans with (Rabs (fold_left Rmax l 0)); [apply Rle_abs|].
    apply fold_Rmax_ge_in. now apply in_map.
Qed.

Lemma pattern_abs_shears (inp : Inputs) :
  map (fun b => Rabs (BoltPattern.shear b))
    (BoltPattern.calculateBoltForces (BoltPattern.propsOf inp))
  = boltShears inp.
Proof.
  rewrite <- (map_map BoltPattern.shear Rabs), pattern_shears.
  apply map_Rabs_nonneg. intros v. apply boltShears_nonneg.
Qed.

Lemma pattern_maxShear_value (inp : Inputs) :
  (2 <= totalBolts inp)%nat ->
  BoltPattern.maxShear (BoltPattern.propsOf inp)
  = Some (fold_left Rmax (boltShears inp) 0).
Proof.
  intros Hn. unfold BoltPattern.maxShear. rewrite pattern_abs_shears.
  apply mathMax_nonneg.
  - apply (nonempty_of_length _ _ (boltShears_length inp) Hn).
  - intros v. apply boltShears_nonneg.
Qed.

(** X18. For a rectangular arrangement under the preconditions of the
    layout, after a successful evaluation, the maximum shear the pattern
    component computes for its table is the maximum shear the engine
    reports. *)
Theorem pattern_max_shear_is_reported (inp : Inputs) (r : Results) :
  arrangement inp = rectangular ->
  layoutPrecondition inp ->
  calculate inp = inr r ->
  BoltPattern.maxShear (BoltPattern.propsOf inp) = Some (shearForce r).
Proof.
  intros _ _ H. destruct (calculate_inr inp r H) as (Hn & b & _ & ->).
  rewrite (proj1 (analyse_maxima inp b)).
  now apply pattern_maxShear_value.
Qed.

Lemma pattern_max_shear_is_reported_witness :
  arrangement defaultInputs = rectangular
  /\ layoutPrecondition defaultInputs
  /\ calculate defaultInputs
     = inr (analyse defaultInputs
              (mkBolt "Grade 8.8" "M24" 145.1 234.1 352.5 830))
  /\ BoltPattern.maxShear (BoltPattern.propsOf defaultInputs)
     = Some (shearForce
               (analyse defaultInputs
                  (mkBolt "Grade 8.8" "M24" 145.1 234.1 352.5 830))).
Proof.
  assert (A : arrangement defaultInputs = rectangular) by reflexivity.
  assert (P : layoutPrecondition defaultInputs).
  { cbv [layoutPrecondition defaultInputs sampleInputs arrangement rowSpacing
           colSpacing numRows numCols]. repeat split; (lra || (simpl; lia)). }
  assert (E : calculate defaultInputs
              = inr (analyse defaultInputs
                       (mkBolt "Grade 8.8" "M24" 145.1 234.1 352.5 830)))
    by reflexivity.
  split; [exact A|]. split; [exact P|]. split; [exact E|].
  exact (pattern_max_shear_is_reported defaultInputs _ A P E).
Defined.

(** X19. Under the preconditions of the layout, after a successful
    evaluation, the maximum tension of the pattern component, taken over
    absolute values, is never below the maximum tension the engine reports,
    and the two are equal when no bolt has a negative tension. *)
Theorem pattern_max_tension_bounds_reported (inp : Inputs) (r : Results) :
  layoutPrecondition inp ->
  calculate inp = inr r ->
  exists m,
    BoltPattern.maxTension (BoltPattern.propsOf inp) = Some m
    /\ axialForce r <= m
    /\ ((forall t, In t (boltTensions inp) -> 0 <= t) -> m = axialForce r).
Proof.
  intros _ H. destruct (calculate_inr inp r H) as (Hn & b & _ & ->).
  rewrite (proj2 (analyse_maxima inp b)).
  exists (fold_left Rmax (map Rabs (boltTensions inp)) 0).
  split; [|split].
  - unfold BoltPattern.maxTension.
    rewrite <- (map_map BoltPattern.tension Rabs), pattern_tensions.
    apply mathMax_nonneg.
    + intros E. apply map_eq_nil in E.
      exact (nonempty_of_length _ _ (boltTensions_length inp) Hn E).
    + intros v Hv. apply in_map_iff in Hv. destruct Hv as (t & <- & _).
      apply Rabs_pos.
  - apply fold_Rmax_abs_le.
  - intros Hpos. now rewrite map_Rabs_nonneg.
Qed.

Lemma pattern_max_tension_bounds_reported_witness :
  layoutPrecondition defaultInputs
  /\ calculate defaultInputs
     = inr (analyse defaultInputs
              (mkBolt "Grade 8.8" "M24" 145.1 234.1 352.5 830))
  /\ exists m,
       BoltPattern.maxTension (BoltPattern.propsOf defaultInputs) = Some m
       /\ axialForce (analyse defaultInputs
                        (mkBolt "Grade 8.8" "M24" 145.1 234.1 352.5 830))
          <= m.
Proof.
  assert (P : layoutPrecondition defaultInputs).
  { cbv [layoutPrecondition defaultInputs sampleInputs arrangement rowSpacing
           colSpacing numRows numCols]. repeat split; (lra || (simpl; lia)). }
  assert (E : calculate defaultInputs
              = inr (analyse defaultInputs
                       (mkBolt "Grade 8.8" "M24" 145.1 234.1 352.5 830)))
    by reflexivity.
  split; [exact P|]. split; [exact E|].
  destruct (pattern_max_tension_bounds_reported defaultInputs _ P E)
    as (m & Hm & Hle & _).
  exists m. split; [exact Hm | exact Hle].
Defined.

(** X20. Under the preconditions of the layout the table marks at least
    one bolt as governing in shear: a bolt whose shear is the maximum shear
    of the pattern component. *)
Theorem some_bolt_marked_max_shear (inp : Inputs) :
  layoutPrecondition inp ->
  exists bolt,
    In bolt (BoltPattern.calculateBoltForces (BoltPattern.propsOf inp))
    /\ BoltPattern.maxShear (BoltPattern.propsOf inp)
       = Some (BoltPattern.shear bolt)
    /\ BoltPattern.isMaxShear (BoltPattern.propsOf inp) bolt = true.
Proof.
  intros P. pose proof (precondition_count inp P) as Hn.
  assert (Hin : In (fold_left Rmax (boltShears inp) 0) (boltShears inp)).
  { destruct (max_exists (boltShears inp)) as (m & Hm);
      [apply (nonempty_of_length _ _ (boltShears_length inp) Hn)|].
    rewrite (fold_Rmax_is_max _ 0 m Hm).
    rewrite Rmax_right; [apply Hm|].
    apply boltShears_nonneg with inp. apply Hm. }
  rewrite <- pattern_shears in Hin at 2. apply in_map_iff in Hin.
  destruct Hin as (bolt & Hs & Hb). exists bolt.
  split; [exact Hb|].
  unfold BoltPattern.isMaxShear. rewrite pattern_maxShear_value by exact Hn.
  rewrite Hs. split; [reflexivity|].
  replace (fold_left Rmax (boltShears inp) 0
           - fold_left Rmax (boltShears inp) 0) with 0 by ring.
  rewrite Rabs_R0. destruct (Rlt_dec 0 0.01) as [|N];
    [reflexivity | exfalso; apply N; lra].
Qed.

Lemma some_bolt_marked_max_shear_witness :
  layoutPrecondition defaultInputs
  /\ exists bolt,
       In bolt (BoltPattern.calculateBoltForces
                  (BoltPattern.propsOf defaultInputs))
       /\ BoltPattern.isMaxShear (BoltPattern.propsOf defaultInputs) bolt
          = true.
Proof.
  assert (P : layoutPrecondition defaultInputs).
  { cbv [layoutPrecondition defaultInputs sampleInputs arrangement rowSpacing
           colSpacing numRows numCols]. repeat split; (lra || (simpl; lia)). }
  split; [exact P|].
  destruct (some_bolt_marked_max_shear defaultInputs P)
    as (bolt & Hb & _ & Hm).
  exists bolt. split; [exact Hb | exact Hm].
Defined.

End PatternMaxima.

(** ** Order and symmetry of the layout, linearity of the forces *)

Section LayoutShape.

Import BoltData App Spec.

Lemma gridCells_in (rows cols r c : nat) :
  In (r, c) (gridCells rows cols) <-> (r < rows)%nat /\ (c < cols)%nat.
Proof.
  unfold gridCells. rewrite in_flat_map. split.
  - intros (r' & Hr & Hc). apply in_map_iff in Hc.
    destruct Hc as (c' & E & Hc). injection E as <- <-.
    apply in_seq in Hr, Hc. lia.
  - intros [Hr Hc]. exists r. split; [apply in_seq; lia|].
    apply in_map. apply in_seq. lia.
Qed.

Lemma nth_rows (cols : nat) (rows a row col : nat) :
  (row < rows)%nat -> (col < cols)%nat ->
  nth_error
    (flat_map (fun r => map (fun c => (r, c)) (seq 0 cols)) (seq a rows))
    (row * cols + col)
  = Some ((a + row)%nat, col).
Proof.
  revert a row; induction rows as [|rows IH]; intros a row Hr Hc; [lia|].
  cbn [seq flat_map]. destruct row as [|row].
  - rewrite nth_error_app1 by (rewrite length_map, length_seq; simpl; lia).
    simpl (0 * cols + col)%nat.
    rewrite nth_error_map, nth_error_seq.
    apply Nat.ltb_lt in Hc. rewrite Hc. simpl. now rewrite Nat.add_0_r.
  - rewrite nth_error_app2 by (rewrite length_map, length_seq; simpl; lia).
    rewrite length_map, length_seq.
    replace (S row * cols + col - cols)%nat with (row * cols + col)%nat
      by (simpl; lia).
    rewrite IH by lia. f_equal. f_equal. lia.
Qed.

(** X21. Enumeration order of the layout: in a rectangular arrangement the
    bolt of row [row] and column [col] has index [row * numCols + col]
    (rows outside, columns inside); in a circular one the bolt of index [i]
    stands at the angle [i * 2 PI / numBolts], the first one at
    [(diameter / 2, 0)]. *)
Theorem layout_enumeration_order (inp : Inputs) :
  (arrangement inp = rectangular ->
   forall row col, (row < numRows inp)%nat -> (col < numCols inp)%nat ->
     nth_error (fst (calculateBoltLayout inp)) (row * numCols inp + col)
     = Some (mkPos (startX inp + INR col * colSpacing inp)
                   (startY inp + INR row * rowSpacing inp)))
  /\ (arrangement inp = circular ->
      (forall i, (i < numBolts inp)%nat ->
         nth_error (fst (calculateBoltLayout inp)) i
         = Some (mkPos
                   (diameter inp / 2
                    * cos (INR i * (2 * PI / INR (numBolts inp))))
                   (diameter inp / 2
                    * sin (INR i * (2 * PI / INR (numBolts inp))))))
      /\ ((1 <= numBolts inp)%nat ->
          nth_error (fst (calculateBoltLayout inp)) 0
          = Some (mkPos (diameter inp / 2) 0))).
Proof.
  split.
  - intros Ha row col Hr Hc. rewrite layout_rectangular by exact Ha.
    cbn [fst]. unfold gridPositions, gridCells.
    rewrite (map_nth_error _ _ _ (nth_rows _ _ 0 row col Hr Hc)).
    reflexivity.
  - intros Ha.
    assert (G : forall i, (i < numBolts inp)%nat ->
              nth_error (fst (calculateBoltLayout inp)) i
              = Some (circlePos inp i)).
    { intros i Hi. rewrite layout_circular by exact Ha. cbn [fst].
      unfold circlePositions. rewrite nth_error_map, nth_error_seq.
      apply Nat.ltb_lt in Hi. rewrite Hi. reflexivity. }
    split.
    + intros i Hi. rewrite (G i Hi). reflexivity.
    + intros Hn. rewrite (G 0%nat) by lia. unfold circlePos, radius.
      simpl INR. rewrite Rmult_0_l, cos_0, sin_0. f_equal. f_equal; ring.
Qed.

Lemma layout_enumeration_order_witness :
  arrangement defaultInputs = rectangular
  /\ (1 < numRows defaultInputs)%nat /\ (2 < numCols defaultInputs)%nat
  /\ nth_error (fst (calculateBoltLayout defaultInputs)) 6
     = Some (mkPos (startX defaultInputs + INR 2 * 160)
                   (startY defaultInputs + INR 1 * 150)).
Proof.
  assert (A : arrangement defaultInputs = rectangular) by reflexivity.
  assert (R1 : (1 < numRows defaultInputs)%nat) by (vm_compute; lia).
  assert (C2 : (2 < numCols defaultInputs)%nat) by (vm_compute; lia).
  split; [exact A|]. split; [exact R1|]. split; [exact C2|].
  exact (proj1 (layout_enumeration_order defaultInputs) A 1%nat 2%nat R1 C2).
Defined.

Lemma scaleLoads_layout (k : R) (inp : Inputs) :
  calculateBoltLayout (scaleLoads k inp) = calculateBoltLayout inp.
Proof. reflexivity. Qed.

(** X23. The bolt forces are linear in the loads: multiplying the six load
    components by a factor [k >= 0] multiplies every bolt's shear and every
    bolt's tension by [k]; the layout does not move. *)
Theorem bolt_forces_scale_with_loads (k : R) (inp : Inputs) :
  0 <= k ->
  calculateBoltLayout (scaleLoads k inp) = calculateBoltLayout inp
  /\ boltShears (scaleLoads k inp) = map (Rmult k) (boltShears inp)
  /\ boltTensions (scaleLoads k inp) = map (Rmult k) (boltTensions inp).
Proof.
  intros Hk. split; [reflexivity|].
  unfold boltShears, boltTensions. rewrite scaleLoads_layout.
  change (totalBolts (scaleLoads k inp)) with (totalBolts inp).
  destruct (calculateBoltLayout inp) as [positions i].
  rewrite !map_map. split; apply map_ext; intros pos.
  - unfold totalShear, verticalShear, horizontalShear. cbn [vx vy tb scaleLoads].
    replace ((- (k * vy inp) * 1000 / INR (totalBolts inp)
              + - (k * tb inp) * 1e6 * x pos / i) ^ 2
             + (- (k * vx inp) * 1000 / INR (totalBolts inp)
                + - (k * tb inp) * 1e6 * y pos / i) ^ 2)
      with (k * k
            * ((- vy inp * 1000 / INR (totalBolts inp)
                + - tb inp * 1e6 * x pos / i) ^ 2
               + (- vx inp * 1000 / INR (totalBolts inp)
                  + - tb inp * 1e6 * y pos / i) ^ 2))
      by (unfold Rdiv; ring).
    rewrite sqrt_scaled.
    + rewrite Rabs_right by (apply Rle_ge; exact Hk). unfold Rdiv. ring.
    + apply Rplus_le_le_0_compat; apply pow2_ge_0.
  - unfold totalAxial, pureAxialForce, majorAxisForce, minorAxisForce.
    change (ym (scaleLoads k inp)) with (ym inp).
    change (xm (scaleLoads k inp)) with (xm inp).
    cbn [mb mm nt pryingAllowance scaleLoads]. unfold Rdiv. ring.
Qed.

Lemma bolt_forces_scale_with_loads_witness :
  0 <= 2
  /\ boltTensions (scaleLoads 2 defaultInputs)
     = map (Rmult 2) (boltTensions defaultInputs).
Proof.
  assert (H : 0 <= 2) by lra.
  split; [exact H|].
  exact (proj2 (proj2 (bolt_forces_scale_with_loads 2 defaultInputs H))).
Defined.

End LayoutShape.

(** ** Torsion carried by the bolts, and the drawing *)

Section TorsionAndCanvas.

Import BoltData App Spec.

Lemma sumR_moment (a b k : R) (l : list BoltPosition) :
  sumR (map (fun p => x p * (a + k * x p) + y p * (b + k * y p)) l)
  = a * sumR (map x l) + b * sumR (map y l) + k * sumR (map sq l).
Proof.
  induction l as [|p l IH]; [simpl; lra|].
  cbn [map sumR fold_right].
  fold (sumR (map (fun p => x p * (a + k * x p) + y p * (b + k * y p)) l)).
  fold (sumR (map x l)). fold (sumR (map y l)). fold (sumR (map sq l)).
  rewrite IH. unfold sq. ring.
Qed.

(** X24. The torsional terms of the shear components carry the applied
    torsion: under the preconditions of the layout, the vertical components
    weighted by [x] plus the horizontal ones weighted by [y] add up, over
    all bolts, to [-Tb * 1e6], whatever the direct shears are. *)
Theorem shear_moments_sum_to_torsion (inp : Inputs) :
  layoutPrecondition inp ->
  sumR (map (fun pos =>
               x pos * verticalShear inp (INR (totalBolts inp))
                         (snd (calculateBoltLayout inp)) pos
               + y pos * horizontalShear inp (INR (totalBolts inp))
                           (snd (calculateBoltLayout inp)) pos)
          (fst (calculateBoltLayout inp)))
  = - tb inp * 1e6.
Proof.
  intros H. pose proof (layout_ibp_pos inp H) as Hi.
  destruct (layout_sums_zero inp H) as [Hx Hy].
  pose proof (layout_ibp_sum inp) as Hs.
  destruct (calculateBoltLayout inp) as [positions i]. simpl in *.
  rewrite (map_ext
             (fun pos => x pos * verticalShear inp (INR (totalBolts inp)) i pos
                         + y pos * horizontalShear inp (INR (totalBolts inp))
                                     i pos)
             (fun p => x p * (- vy inp * 1000 / INR (totalBolts inp)
                              + (- tb inp * 1e6 / i) * x p)
                       + y p * (- vx inp * 1000 / INR (totalBolts inp)
                                + (- tb inp * 1e6 / i) * y p)))
    by (intros p; unfold verticalShear, horizontalShear, Rdiv; ring).
  rewrite sumR_moment, Hx, Hy, <- Hs, !Rmult_0_r, !Rplus_0_l. field. lra.
Qed.

Lemma shear_moments_sum_to_torsion_witness :
  layoutPrecondition defaultInputs
  /\ sumR (map (fun pos =>
                  x pos * verticalShear defaultInputs
                            (INR (totalBolts defaultInputs))
                            (snd (calculateBoltLayout defaultInputs)) pos
                  + y pos * horizontalShear defaultInputs
                              (INR (totalBolts defaultInputs))
                              (snd (calculateBoltLayout defaultInputs)) pos)
             (fst (calculateBoltLayout defaultInputs)))
     = - 10 * 1e6.
Proof.
  assert (H : layoutPrecondition defaultInputs).
  { cbv [layoutPrecondition defaultInputs sampleInputs arrangement rowSpacing
           colSpacing numRows numCols]. repeat split; (lra || (simpl; lia)). }
  split; [exact H|].
  exact (shear_moments_sum_to_torsion defaultInputs H).
Defined.

Lemma INR_lt_pred (c n : nat) : (c < n)%nat -> INR c <= INR n - 1.
Proof.
  intros H. apply le_INR in H. rewrite S_INR in H. lra.
Qed.

(** X25. Every bolt is drawn inside the canvas, at least [padding] away
    from each of its four edges, for every arrangement the data model
    allows. *)
Theorem bolts_drawn_inside_canvas (inp : Inputs) (bolt : BoltPattern.BoltForce) :
  validArrangement inp ->
  In bolt (BoltPattern.calculateBoltForces (BoltPattern.propsOf inp)) ->
  BoltPattern.padding <= BoltPattern.scaledX bolt
                      <= BoltPattern.width (BoltPattern.propsOf inp)
                         - BoltPattern.padding
  /\ BoltPattern.padding <= BoltPattern.scaledY bolt
                         <= BoltPattern.height (BoltPattern.propsOf inp)
                            - BoltPattern.padding.
Proof.
  intros Hv Hin. rewrite calculateBoltForces_closed in Hin.
  apply in_map_iff in Hin. destruct Hin as (pos & <- & Hpos).
  unfold BoltPattern.scaledX, BoltPattern.scaledY, BoltPattern.width,
    BoltPattern.height, BoltPattern.tableCenterX, BoltPattern.tableCenterY,
    BoltPattern.scale, BoltPattern.padding.
  cbn [BoltPattern.x BoltPattern.y].
  change (BoltPattern.arrangement (BoltPattern.propsOf inp))
    with (arrangement inp).
  unfold validArrangement in Hv. destruct (arrangement inp) eqn:Ha.
  - destruct Hv as (_ & _ & Hrs & Hcs).
    rewrite layout_rectangular in Hpos by exact Ha. cbn [fst] in Hpos.
    unfold gridPositions in Hpos. apply in_map_iff in Hpos.
    destruct Hpos as ([row col] & <- & Hrc). apply gridCells_in in Hrc.
    destruct Hrc as [Hr Hc]. apply INR_lt_pred in Hr, Hc.
    pose proof (pos_INR row) as Hr0. pose proof (pos_INR col) as Hc0.
    unfold gridPos, startX, startY.
    cbn [x y fst snd BoltPattern.numRows BoltPattern.numCols
           BoltPattern.rowSpacing BoltPattern.colSpacing BoltPattern.propsOf].
    assert (Ex : - ((INR (numCols inp) - 1) * colSpacing inp) / 2
                 + INR col * colSpacing inp
                 + (INR (numCols inp) - 1) * colSpacing inp / 2
                 = INR col * colSpacing inp) by field.
    assert (Ey : - ((INR (numRows inp) - 1) * rowSpacing inp) / 2
                 + INR row * rowSpacing inp
                 + (INR (numRows inp) - 1) * rowSpacing inp / 2
                 = INR row * rowSpacing inp) by field.
    rewrite Ex, Ey.
    assert (0 <= INR col * colSpacing inp) by nra.
    assert (INR col * colSpacing inp
            <= colSpacing inp * (INR (numCols inp) - 1)) by nra.
    assert (0 <= INR row * rowSpacing inp) by nra.
    assert (INR row * rowSpacing inp
            <= rowSpacing inp * (INR (numRows inp) - 1)) by nra.
    lra.
  - destruct Hv as (Hd & _).
    rewrite layout_circular in Hpos by exact Ha. cbn [fst] in Hpos.
    unfold circlePositions in Hpos. apply in_map_iff in Hpos.
    destruct Hpos as (i & <- & _).
    unfold circlePos, radius.
    cbn [x y BoltPattern.diameter BoltPattern.propsOf].
    pose proof (COS_bound (INR i * angleIncrement inp)) as [Hc1 Hc2].
    pose proof (SIN_bound (INR i * angleIncrement inp)) as [Hs1 Hs2].
    set (c := cos (INR i * angleIncrement inp)) in *.
    set (sn := sin (INR i * angleIncrement inp)) in *.
    nra.
Qed.

Lemma bolts_drawn_inside_canvas_witness :
  validArrangement defaultInputs
  /\ exists bolt,
       In bolt (BoltPattern.calculateBoltForces
                  (BoltPattern.propsOf defaultInputs))
       /\ BoltPattern.padding <= BoltPattern.scaledX bolt
                              <= BoltPattern.width
                                   (BoltPattern.propsOf defaultInputs)
                                 - BoltPattern.padding.
Proof.
  assert (H : validArrangement defaultInputs).
  { cbv [validArrangement defaultInputs sampleInputs arrangement rowSpacing
           colSpacing numRows numCols]. repeat split; (lra || lia). }
  split; [exact H|].
  assert (N : BoltPattern.calculateBoltForces
                (BoltPattern.propsOf defaultInputs) <> []).
  { rewrite calculateBoltForces_closed, layout_rectangular by reflexivity.
    discriminate. }
  destruct (BoltPattern.calculateBoltForces
              (BoltPattern.propsOf defaultInputs)) as [|bolt rest] eqn:E;
    [contradiction|].
  exists bolt.
  assert (I : In bolt (BoltPattern.calculateBoltForces
                         (BoltPattern.propsOf defaultInputs)))
    by (rewrite E; left; reflexivity).
  split; [left; reflexivity|].
  exact (proj1 (bolts_drawn_inside_canvas defaultInputs bolt H I)).
Defined.

End TorsionAndCanvas.

(** ** Where the doubles depart from exact arithmetic *)

Section InDoubles.

Import PrimFloat.

#[local] Set Warnings "-inexact-float".

Local Open Scope float_scope.


(** C10, as stated, fails on the doubles of the program: for six bolts on a
    circle of diameter 101.6 mm under the default loads the two copies get
    polar moments that differ in the last digit, [n * (r * r)] against
    [(n * r) * r], and with them different shears for bolt 0. *)
Lemma copies_differ_in_doubles :
  Doubles.circularIbp 6 101.6 = 15483.84
  /\ Doubles.patternCircularIbp 6 101.6 = 15483.839999999997
  /\ Doubles.totalShear 20 5 10 (Doubles.counter 6)
       (Doubles.circularIbp 6 101.6) (Doubles.firstCircularBolt 101.6)
     = 33.806467756087933
  /\ Doubles.patternTotalShear 20 5 10 (Doubles.counter 6)
       (Doubles.patternCircularIbp 6 101.6)
       (Doubles.x (Doubles.firstCircularBolt 101.6))
       (Doubles.y (Doubles.firstCircularBolt 101.6))
     = 33.80646775608794
  /\ eqb (Doubles.totalShear 20 5 10 (Doubles.counter 6)
            (Doubles.circularIbp 6 101.6) (Doubles.firstCircularBolt 101.6))
         (Doubles.patternTotalShear 20 5 10 (Doubles.counter 6)
            (Doubles.patternCircularIbp 6 101.6)
            (Doubles.x (Doubles.firstCircularBolt 101.6))
            (Doubles.y (Doubles.firstCircularBolt 101.6)))
     = false.
Proof. repeat split; vm_compute; reflexivity. Qed.

End InDoubles.
